(** * Geo-SInC notebooks: the homegrown numerical glue, embedded and verified

    The notebooks of the repository glue numpy, GDAL and kite together.  This
    development embeds the code cells that carry logic of their own:

    - the mask/convert cells of the two kite notebooks
      (EarthScope2024/3.1 and UNAVCO2021/3.2),
    - the angle set-up and the line-of-sight reformatting cells of the
      EarthScope2024/3.1 workflow, up to [np.savetxt],
    - the penalty cells and the residuals of the okapy forward-model
      notebook,
    - [multiLook] of EarthScope2024/0.4.

    Floating-point numbers are idealised as real numbers; the one non-real
    value the cells produce themselves, [np.nan], is kept as a value of its
    own ([px]).  The penalty cells are embedded a second time on binary64
    numbers, with numpy's order of summation, for what rounding and
    overflow decide.  numpy, GDAL and printf primitives are modelled by the
    part of their behaviour the cells rely on. *)

From Stdlib Require Import String Ascii DecimalString.
From Stdlib Require PrimFloat Uint63 SpecFloat FloatOps FloatAxioms.
From Stdlib Require Import Reals Lra Lia ZArith Bool Arith List.
Import ListNotations.

Set Implicit Arguments.

(** ** Python exceptions and the result monad *)

Inductive exn : Type :=
| IndexError
| ValueError
| ZeroDivisionError
| RuntimeError.

Inductive result (A : Type) : Type :=
| Ok (a : A)
| Raise (e : exn).

Arguments Ok {A} a.
Arguments Raise {A} e.

Definition bind {A B : Type} (r : result A) (k : A -> result B) : result B :=
  match r with
  | Ok a => k a
  | Raise e => Raise e
  end.

Notation "x <- r ;; k" := (bind r (fun x => k))
  (at level 61, r at next level, right associativity).

(** ** numpy scalars and arrays *)

Module Numpy.

Open Scope R_scope.

(** A float cell: a real number or [np.nan]. *)
Inductive px : Type :=
| NaN
| Val (r : R).

(** Arithmetic propagates NaN. *)
Definition px_lift2 (f : R -> R -> R) (a b : px) : px :=
  match a, b with
  | Val x, Val y => Val (f x y)
  | _, _ => NaN
  end.

Definition px_add : px -> px -> px := px_lift2 Rplus.
Definition px_sub : px -> px -> px := px_lift2 Rminus.
Definition px_mul : px -> px -> px := px_lift2 Rmult.
Definition px_div : px -> px -> px := px_lift2 Rdiv.

(** The cell holds a real number. *)
Definition is_val (x : px) : Prop := exists r, x = Val r.

(** [a < b]: every comparison with NaN is False. *)
Definition px_ltb (a b : px) : bool :=
  match a, b with
  | Val x, Val y => if Rlt_dec x y then true else false
  | _, _ => false
  end.

(** A two-dimensional array: its shape (rows, columns) and its cells in
    row-major order. *)
Record ndarray (A : Type) : Type := mk_ndarray {
  shape : nat * nat;
  cells : list A
}.

Definition wf_ndarray {A : Type} (a : ndarray A) : Prop :=
  length (cells a) = (fst (shape a) * snd (shape a))%nat.

(** [a[i, j]] *)
Definition item {A : Type} (a : ndarray A) (i j : nat) : option A :=
  nth_error (cells a) (i * snd (shape a) + j).

Definition shape_eqb (s t : nat * nat) : bool :=
  Nat.eqb (fst s) (fst t) && Nat.eqb (snd s) (snd t).

(** An elementwise operation with a scalar keeps the shape. *)
Definition amap {A B : Type} (f : A -> B) (a : ndarray A) : ndarray B :=
  {| shape := shape a; cells := map f (cells a) |}.

(** [a *= k] *)
Definition imul (a : ndarray px) (k : px) : ndarray px :=
  amap (fun x => px_mul x k) a.

(** [msk < 1] on an integer raster, [cor < t] on a float raster. *)
Definition lt_int (a : ndarray Z) (k : Z) : ndarray bool :=
  amap (fun z => Z.ltb z k) a.

Definition lt_float (a : ndarray px) (t : px) : ndarray bool :=
  amap (fun c => px_ltb c t) a.

Fixpoint put_where (xs : list px) (ms : list bool) (v : px) : list px :=
  match xs, ms with
  | x :: xs', m :: ms' => (if m then v else x) :: put_where xs' ms' v
  | _, _ => xs
  end.

(** [a[mask] = v] with a boolean [mask] of the rank of [a], both without a
    zero-length axis (GDAL rasters have at least one row and one column):
    numpy raises IndexError ("boolean index did not match indexed array")
    unless the two shapes agree on every axis; there is no broadcasting of
    a boolean index. *)
Definition setitem_mask (a : ndarray px) (mask : ndarray bool) (v : px)
  : result (ndarray px) :=
  if shape_eqb (shape mask) (shape a)
  then Ok {| shape := shape a; cells := put_where (cells a) (cells mask) v |}
  else Raise IndexError.

(** [np.radians] *)
Definition radians (deg : R) : R := deg * (PI / 180).

(** One-dimensional arrays are lists.  Binary operations broadcast: equal
    lengths go cell by cell, a length-one operand is stretched, anything
    else raises ValueError ("operands could not be broadcast together"). *)
Fixpoint zip_with {A B C : Type} (f : A -> B -> C) (xs : list A) (ys : list B)
  : list C :=
  match xs, ys with
  | x :: xs', y :: ys' => f x y :: zip_with f xs' ys'
  | _, _ => []
  end.

Definition broadcast2 (f : px -> px -> px) (xs ys : list px)
  : result (list px) :=
  if Nat.eqb (length xs) (length ys) then Ok (zip_with f xs ys)
  else match xs, ys with
       | _, [y] => Ok (map (fun x => f x y) xs)
       | [x], _ => Ok (map (fun y => f x y) ys)
       | _, _ => Raise ValueError
       end.

(** array - array, array - scalar, [np.square], [np.sum], [np.mean] *)
Definition sub (xs ys : list px) : result (list px) := broadcast2 px_sub xs ys.

Definition sub_scalar (xs : list px) (c : px) : list px :=
  map (fun x => px_sub x c) xs.

Definition square (xs : list px) : list px := map (fun x => px_mul x x) xs.

Definition sum (xs : list px) : px := fold_right px_add (Val 0) xs.

(** The mean of an empty array is NaN (0/0). *)
Definition mean (xs : list px) : px :=
  match xs with
  | [] => NaN
  | _ => px_div (sum xs) (Val (INR (length xs)))
  end.

(** [np.arange(start, stop)] for integers *)
Definition arange (start stop : nat) : list nat := seq start (stop - start).

End Numpy.

Import Numpy.
Open Scope R_scope.

(** ** EarthScope2024/3.1: quadtree_decomposition_kite_workflow *)

Module KiteWorkflow.

(** The mask/convert lines of the loading cell.  [ifg], [msk] and [cor] are
    the flipped rasters read by GDAL; [msk] is opened only when
    [use_water_mask] holds.

      if use_water_mask==True: ifg[msk<1]=np.nan
      ifg*=wavel/4/math.pi
      ifg[cor<cor_thresh]=np.nan *)
Definition mask_convert (use_water_mask : bool) (wavel cor_thresh : R)
  (ifg : ndarray px) (msk : ndarray Z) (cor : ndarray px)
  : result (ndarray px) :=
  ifg1 <- (if use_water_mask
           then setitem_mask ifg (lt_int msk 1) NaN
           else Ok ifg) ;;
  let ifg2 := imul ifg1 (Val (wavel / 4 / PI)) in
  setitem_mask ifg2 (lt_float cor (Val cor_thresh)) NaN.

(** [sc.theta=np.radians(90-inc[...])], [sc.phi=np.radians(90+azi[...])],
    cell by cell; [inc] and [azi] are the two bands of the ISCE
    line-of-sight file, in degrees. *)
Definition sc_theta (inc : R) : R := radians (90 - inc).
Definition sc_phi (azi : R) : R := radians (90 + azi).

(** The parameters both kite notebooks assign to the quadtree.  The
    decomposition that reads them is kite's own; the notebooks only set
    them and read the leaves back.

      qt.epsilon = 0.02
      qt.nan_allowed = 0.5
      qt.tile_size_max = 0.2
      qt.tile_size_min = 0.01 *)
Record quadtree_parameters : Type := mk_parameters {
  epsilon : R;
  nan_allowed : R;
  tile_size_max : R;
  tile_size_min : R
}.

Definition qt_parameters : quadtree_parameters :=
  {| epsilon := 0.02;
     nan_allowed := 0.5;
     tile_size_max := 0.2;
     tile_size_min := 0.01 |}.

(** What the notebook reads from kite's quadtree: one focal point (east,
    north), mean, theta and phi per leaf, exposed as the vectors
    [qt.leaf_focal_points], [qt.leaf_means], [qt.leaf_thetas] and
    [qt.leaf_phis], all in the order of [qt.leaves]. *)
Record leaf : Type := mk_leaf {
  focal_point : R * R;
  leaf_mean : R;
  leaf_theta : R;
  leaf_phi : R
}.

Definition quadtree : Type := list leaf.

Definition leaf_focal_points (qt : quadtree) : list (R * R) := map focal_point qt.
Definition leaf_means (qt : quadtree) : list R := map leaf_mean qt.
Definition leaf_thetas (qt : quadtree) : list R := map leaf_theta qt.
Definition leaf_phis (qt : quadtree) : list R := map leaf_phi qt.

(** The line-of-sight components, for one leaf and for the vectors:

      losx=np.cos(qt.leaf_thetas)*-np.cos(qt.leaf_phis)
      losy=np.cos(qt.leaf_thetas)*-np.sin(qt.leaf_phis)
      losz=-np.sin(qt.leaf_thetas) *)
Definition los_x (theta phi : R) : R := cos theta * - cos phi.
Definition los_y (theta phi : R) : R := cos theta * - sin phi.
Definition los_z (theta : R) : R := - sin theta.

Definition losx (qt : quadtree) : list R :=
  zip_with los_x (leaf_thetas qt) (leaf_phis qt).
Definition losy (qt : quadtree) : list R :=
  zip_with los_y (leaf_thetas qt) (leaf_phis qt).
Definition losz (qt : quadtree) : list R := map los_z (leaf_thetas qt).

(** The Euclidean length of a three-component vector. *)
Definition magnitude (x y z : R) : R := sqrt (x * x + y * y + z * z).

(** [qt.leaf_focal_points[:,k]], with [proj] picking component [k].  Kite
    builds the array from the list of the leaves' focal points: with at
    least one leaf it has one row of two numbers per leaf, without leaves it
    is an empty array of one dimension, on which a subscript with two
    indices raises IndexError. *)
Definition focal_points_column (proj : R * R -> R) (qt : quadtree)
  : result (list R) :=
  match leaf_focal_points qt with
  | [] => Raise IndexError
  | p :: ps => Ok (map proj (p :: ps))
  end.

(** [xyll=np.column_stack((qt.leaf_focal_points[:,0]+reflon,
                           qt.leaf_focal_points[:,1]+reflat))]:
    the rows (longitude, latitude) of the stacked array. *)
Definition xyll (reflat reflon : R) (qt : quadtree) : result (list (R * R)) :=
  east <- focal_points_column fst qt ;;
  north <- focal_points_column snd qt ;;
  Ok (combine (map (fun x => x + reflon) east)
              (map (fun y => y + reflat) north)).

(** [dataptid=np.arange(1,losx.size+1)] *)
Definition dataptid (qt : quadtree) : list nat :=
  arange 1 (length (losx qt) + 1).

(** [np.column_stack] of one-dimensional columns: the rows of the stacked
    array; ValueError unless all columns have one length. *)
Definition column_stack (cols : list (list R)) : result (list (list R)) :=
  let n := length (hd [] cols) in
  if forallb (fun c => Nat.eqb (length c) n) cols
  then Ok (map (fun i => map (fun c => nth i c 0) cols) (seq 0 n))
  else Raise ValueError.

Fixpoint mapM {A B : Type} (f : A -> result B) (xs : list A) : result (list B) :=
  match xs with
  | [] => Ok []
  | x :: xs' => y <- f x ;; ys <- mapM f xs' ;; Ok (y :: ys)
  end.

(** [int(x)] of a float: truncation towards zero. *)
Definition trunc (x : R) : Z :=
  if Rle_dec 0 x then Int_part x else (- Int_part (- x))%Z.

(** printf's [%d] applied to a float, as Python does it. *)
Definition pct_d (x : R) : string := NilZero.string_of_int (Z.to_int (trunc x)).

Section Reformat.

(** [utm.from_latlon] on a latitude and a longitude vector: easting and
    northing vectors in metres (the zone is not used by the notebook). *)
Variable from_latlon : list R -> list R -> result (list R * list R).

(** printf's [%f] on a double. *)
Variable pct_f : R -> string.

(** [xym = utm.from_latlon(xyll[:,1],xyll[:,0])],
    [xkm = xym[0]/1000], [ykm = xym[1]/1000] *)
Definition xym (reflat reflon : R) (qt : quadtree) : result (list R * list R) :=
  xy <- xyll reflat reflon qt ;;
  from_latlon (map snd xy) (map fst xy).

Definition xkm (m : list R * list R) : list R := map (fun e => e / 1000) (fst m).
Definition ykm (m : list R * list R) : list R := map (fun n => n / 1000) (snd m).

(** [okinv_data=np.column_stack((xkm,ykm,qt.leaf_means,losx,losy,losz,dataptid))];
    the stacked array is a float array, the ids are converted. *)
Definition okinv_data (reflat reflon : R) (qt : quadtree)
  : result (list (list R)) :=
  m <- xym reflat reflon qt ;;
  column_stack [xkm m; ykm m; leaf_means qt; losx qt; losy qt; losz qt;
                map INR (dataptid qt)].

(** One line of [np.savetxt(outfile,okinv_data,fmt='%f %f %f %f %f %f %d')]:
    the format has seven conversions and savetxt raises ValueError when the
    array has another number of columns. *)
Definition format_row (row : list R) : result string :=
  match row with
  | [x; y; d; lx; ly; lz; id] =>
      Ok (pct_f x ++ " " ++ pct_f y ++ " " ++ pct_f d ++ " " ++ pct_f lx
          ++ " " ++ pct_f ly ++ " " ++ pct_f lz ++ " " ++ pct_d id)%string
  | _ => Raise ValueError
  end.

(** The lines of the output file, each written with a newline after it. *)
Definition savetxt (rows : list (list R)) : result (list string) :=
  mapM format_row rows.

Definition write_okinv (reflat reflon : R) (qt : quadtree)
  : result (list string) :=
  rows <- okinv_data reflat reflon qt ;; savetxt rows.

End Reformat.

(** The string has a space in it. *)
Fixpoint has_space (s : string) : bool :=
  match s with
  | EmptyString => false
  | String c s' => Ascii.eqb c " "%char || has_space s'
  end.

(** Reading a line back: the fields between single spaces. *)
Fixpoint fields (s : string) : list string :=
  match s with
  | EmptyString => [EmptyString]
  | String c s' =>
      if Ascii.eqb c " "%char then EmptyString :: fields s'
      else match fields s' with
           | [] => [String c EmptyString]
           | f :: fs => String c f :: fs
           end
  end.

End KiteWorkflow.

(** ** UNAVCO2021/3.2: quadtree_decomposition_kite *)

Module KiteUNAVCO.

(** The three masking and conversion lines, on [sc.displacement]:

      sc.displacement*=wavel/4/math.pi
      sc.displacement[msk<1]=np.nan
      sc.displacement[cor<cor_thresh]=np.nan *)
Definition mask_convert (wavel cor_thresh : R)
  (displacement : ndarray px) (msk : ndarray Z) (cor : ndarray px)
  : result (ndarray px) :=
  let d1 := imul displacement (Val (wavel / 4 / PI)) in
  d2 <- setitem_mask d1 (lt_int msk 1) NaN ;;
  setitem_mask d2 (lt_float cor (Val cor_thresh)) NaN.

End KiteUNAVCO.

(** ** The mask/convert contract, in the words of the specification *)

Module MaskConvertSpec.

(** [a < b] as a proposition; it fails when either side is NaN. *)
Definition px_lt (a b : px) : Prop :=
  match a, b with
  | Val x, Val y => x < y
  | _, _ => False
  end.

(** A pixel is masked when its coherence is strictly below the threshold or
    when a water mask is in use and its value there is strictly below 1. *)
Definition masked (cor_thresh : R) (water : option Z) (c : px) : Prop :=
  px_lt c (Val cor_thresh) \/ (exists m, water = Some m /\ (m < 1)%Z).

(** The output pixel [q] for phase [p]: NaN when masked, otherwise the phase
    times wavelength / (4 pi). *)
Definition converted (wavel cor_thresh : R) (p : px) (water : option Z)
  (c : px) (q : px) : Prop :=
  (masked cor_thresh water c -> q = NaN) /\
  (~ masked cor_thresh water c -> q = px_mul p (Val (wavel / (4 * PI)))).

End MaskConvertSpec.

(** ** The okapy forward-model notebook: penalties, in exact arithmetic *)

Module ForwardModel.

(** [penalty = np.sum(np.square(data[:,2]-model_los_disps))];
    [d] is the column [data[:,2]]. *)
Definition penalty (d model_los_disps : list px) : result px :=
  r <- sub d model_los_disps ;;
  Ok (sum (square r)).

(** [zero_shift = np.mean(data[:,2]-model_los_disps)] *)
Definition zero_shift (d model_los_disps : list px) : result px :=
  r <- sub d model_los_disps ;;
  Ok (mean r).

(** The second cell as a whole: the shift, then
    [penalty = np.sum(np.square((data[:,2]-zero_shift)-model_los_disps))]. *)
Definition penalty_zero_level (d model_los_disps : list px) : result (px * px) :=
  z <- zero_shift d model_los_disps ;;
  r <- sub (sub_scalar d z) model_los_disps ;;
  Ok (z, sum (square r)).

(** The contract in the words of the specification, over real vectors read
    in step: the sum of squared residuals, the mean residual, and the sum of
    squares after the mean residual is taken off the observations. *)
Fixpoint residuals (obs pred : list R) : list R :=
  match obs, pred with
  | o :: obs', p :: pred' => (o - p) :: residuals obs' pred'
  | _, _ => []
  end.

Definition total (xs : list R) : R := fold_right Rplus 0 xs.

Definition sum_of_squares (rs : list R) : R := total (map (fun r => r * r) rs).

Definition mean_residual (obs pred : list R) : R :=
  total (residuals obs pred) / INR (length (residuals obs pred)).

Definition corrected_sum_of_squares (obs pred : list R) : R :=
  sum_of_squares
    (residuals (map (fun o => o - mean_residual obs pred) obs) pred).

End ForwardModel.

(** ** EarthScope2024/0.4: 02_RasterDataManipulation, multiLook *)

Module RasterManipulation.

Open Scope Z_scope.

(** A one-band raster: its size and the value at column [x], row [y].  A
    GDAL raster has at least one column and one row. *)
Record dataset : Type := mk_dataset {
  RasterXSize : Z;
  RasterYSize : Z;
  band : Z -> Z -> R;
  raster_size : 0 < RasterXSize /\ 0 < RasterYSize
}.

Arguments mk_dataset : clear implicits.

(** The fields of [gdal.TranslateOptions] that [multiLook] computes;
    [srcWin] is [xoff, yoff, xsize, ysize].  The format, the no-data value
    and the resampling name are passed through unchanged; the resampling is
    the default, ['average']. *)
Record TranslateOptions : Type := mk_opts {
  width : Z;
  height : Z;
  srcWin : Z * Z * Z * Z
}.

(** Python's [a // b] on integers. *)
Definition floordiv (a b : Z) : result Z :=
  if Z.eqb b 0 then Raise ZeroDivisionError else Ok (a / b).

Fixpoint sum_from (f : Z -> R) (lo : Z) (n : nat) : R :=
  match n with
  | O => 0%R
  | S k => (f lo + sum_from f (lo + 1) k)%R
  end.

(** The box-car mean of the [bw] by [bh] block with upper-left pixel
    [(x0, y0)]. *)
Definition box_average (ds : dataset) (x0 y0 bw bh : Z) : R :=
  (sum_from (fun y => sum_from (fun x => band ds x y) x0 (Z.to_nat bw))
            y0 (Z.to_nat bh)
   / (IZR bw * IZR bh))%R.

Section Gdal.

(** What GDAL makes of a request it does not carry out as written: one
    that asks for no column or no row, or whose source window is empty.
    To [gdal.Translate] a width or height of 0 stands for a value that was
    not given, and no raster has zero columns or rows.  What comes back
    instead is GDAL's business and is left open here: [None] when the call
    fails, [Some r] when GDAL writes a raster [r] of a size of its own
    choosing. *)
Variable unset_size : dataset -> TranslateOptions -> option dataset.

(** The notebook calls [gdal.UseExceptions()], so a call that fails raises
    RuntimeError. *)
Definition Translate_unset (ds : dataset) (o : TranslateOptions)
  : result dataset :=
  match unset_size ds o with
  | Some r => Ok r
  | None => Raise RuntimeError
  end.

(** [gdal.Translate] with average resampling, for a source window that is
    a whole multiple of the output size (the requests [multiLook] makes):
    the output has [width] by [height] pixels, and pixel [(i, j)] is the
    mean of the block of the window that maps onto it. *)
Definition Translate (ds : dataset) (o : TranslateOptions) : result dataset :=
  let '(xoff, yoff, xsize, ysize) := srcWin o in
  let bw := xsize / width o in
  let bh := ysize / height o in
  match Z_lt_dec 0 (width o), Z_lt_dec 0 (height o) with
  | left Hw, left Hh =>
      if (0 <? xsize) && (0 <? ysize)
      then Ok {| RasterXSize := width o;
                 RasterYSize := height o;
                 band := fun i j =>
                   box_average ds (xoff + i * bw) (yoff + j * bh) bw bh;
                 raster_size := conj Hw Hh |}
      else Translate_unset ds o
  | _, _ => Translate_unset ds o
  end.

(** The options set up by [multiLook]:

      outXSize = xSize//xlooks
      outYSize = ySize//ylooks
      gdal.TranslateOptions(format=fmt, width=outXSize, height=outYSize,
                            srcWin=[0,0,outXSize*xlooks, outYSize*ylooks],
                            noData=noData, resampleAlg=method) *)
Definition multiLook_options (ds : dataset) (xlooks ylooks : Z)
  : result TranslateOptions :=
  let xSize := RasterXSize ds in
  let ySize := RasterYSize ds in
  outXSize <- floordiv xSize xlooks ;;
  outYSize <- floordiv ySize ylooks ;;
  Ok {| width := outXSize;
        height := outYSize;
        srcWin := (0, 0, outXSize * xlooks, outYSize * ylooks) |}.

(** [multiLook(infile, outfile, xlooks=..., ylooks=...)]: [ds] is the opened
    [infile], the returned raster is what is written to [outfile]. *)
Definition multiLook (ds : dataset) (xlooks ylooks : Z) : result dataset :=
  o <- multiLook_options ds xlooks ylooks ;;
  Translate ds o.

End Gdal.

(** Pixel [(x, y)] lies in the source window of the options. *)
Definition in_srcWin (o : TranslateOptions) (x y : Z) : Prop :=
  let '(xoff, yoff, xsize, ysize) := srcWin o in
  xoff <= x < xoff + xsize /\ yoff <= y < yoff + ysize.

End RasterManipulation.

(** ** The penalty cells on float64 arrays

    The cells of the forward-model notebook once more, now on IEEE binary64
    numbers with numpy's order of operations, for the statements that
    rounding or overflow decides. *)

Module Numpy64.

Import PrimFloat.
Local Open Scope float_scope.

(** Binary operations broadcast as in [Numpy.broadcast2]. *)
Definition broadcast2 (f : float -> float -> float) (xs ys : list float)
  : result (list float) :=
  if Nat.eqb (length xs) (length ys) then Ok (Numpy.zip_with f xs ys)
  else match xs, ys with
       | _, [y] => Ok (map (fun x => f x y) xs)
       | [x], _ => Ok (map (fun y => f x y) ys)
       | _, _ => Raise ValueError
       end.

Definition sub (xs ys : list float) : result (list float) :=
  broadcast2 PrimFloat.sub xs ys.

Definition sub_scalar (xs : list float) (c : float) : list float :=
  map (fun x => x - c) xs.

Definition square (xs : list float) : list float := map (fun x => x * x) xs.

(** numpy adds up a contiguous array by pairwise summation.  Fewer than 8
    numbers are added from left to right, starting from -0.0. *)
Definition sum_left (start : float) (xs : list float) : float :=
  fold_left PrimFloat.add xs start.

(** From 8 to 128 numbers: eight running sums take every eighth number, as
    long as whole groups of eight are left. *)
Fixpoint add_groups (fuel : nat) (r xs : list float)
  : list float * list float :=
  match fuel with
  | O => (r, xs)
  | S fuel' =>
      if Nat.ltb (length xs) 8 then (r, xs)
      else add_groups fuel' (Numpy.zip_with PrimFloat.add r (firstn 8 xs))
             (skipn 8 xs)
  end.

(** The eight sums are added in pairs, and the numbers left over are added
    to the result from left to right. *)
Definition sum_block (xs : list float) : float :=
  let '(r, rest) := add_groups (length xs) (firstn 8 xs) (skipn 8 xs) in
  let r_ i := nth i r 0 in
  sum_left (((r_ 0%nat + r_ 1%nat) + (r_ 2%nat + r_ 3%nat))
            + ((r_ 4%nat + r_ 5%nat) + (r_ 6%nat + r_ 7%nat))) rest.

(** More than 128 numbers are split near the middle, at a multiple of 8,
    and the sums of the two parts are added.  [fuel] bounds the depth of
    the splitting; the length of the array is enough. *)
Fixpoint pairwise_sum (fuel : nat) (xs : list float) : float :=
  match fuel with
  | O => sum_left (-0) xs
  | S fuel' =>
      let n := length xs in
      if Nat.ltb n 8 then sum_left (-0) xs
      else if Nat.leb n 128 then sum_block xs
      else let n2 := (n / 2 - (n / 2) mod 8)%nat in
           pairwise_sum fuel' (firstn n2 xs) + pairwise_sum fuel' (skipn n2 xs)
  end.

(** [np.sum]: the pairwise sum added to the initial value 0.0. *)
Definition sum (xs : list float) : float :=
  0 + pairwise_sum (length xs) xs.

Definition float_of_nat (n : nat) : float :=
  of_uint63 (Uint63.of_Z (Z.of_nat n)).

(** [np.mean]: the sum divided by the number of elements; 0.0/0 is NaN. *)
Definition mean (xs : list float) : float :=
  sum xs / float_of_nat (length xs).

(** Not below zero: NaN, a zero, or a number or an infinity with the sign
    bit clear. *)
Definition sf_not_negative (x : SpecFloat.spec_float) : Prop :=
  match x with
  | SpecFloat.S754_nan => True
  | SpecFloat.S754_zero _ => True
  | SpecFloat.S754_infinity s => s = false
  | SpecFloat.S754_finite s _ _ => s = false
  end.

Definition not_negative (x : float) : Prop :=
  sf_not_negative (FloatOps.Prim2SF x).

End Numpy64.

Module ForwardModel64.

Import PrimFloat.

(** [penalty = np.sum(np.square(data[:,2]-model_los_disps))] *)
Definition penalty (d model_los_disps : list float) : result float :=
  r <- Numpy64.sub d model_los_disps ;;
  Ok (Numpy64.sum (Numpy64.square r)).

(** [zero_shift = np.mean(data[:,2]-model_los_disps)] *)
Definition zero_shift (d model_los_disps : list float) : result float :=
  r <- Numpy64.sub d model_los_disps ;;
  Ok (Numpy64.mean r).

(** [penalty = np.sum(np.square((data[:,2]-zero_shift)-model_los_disps))],
    with the shift. *)
Definition penalty_zero_level (d model_los_disps : list float)
  : result (float * float) :=
  z <- zero_shift d model_los_disps ;;
  r <- Numpy64.sub (Numpy64.sub_scalar d z) model_los_disps ;;
  Ok (z, Numpy64.sum (Numpy64.square r)).

End ForwardModel64.

(** ** The okapy forward-model notebook: the residual plot *)

Module ResidualPlot.

Import PrimFloat.

(** The last cell, before the plotting calls; [zero_shift] is the value left
    by the penalty cell.

      shifted_data = data[:,2]-zero_shift
      residual_los_disps = model_los_disps-shifted_data *)
Definition shifted_data (d : list float) (zero_shift : float) : list float :=
  Numpy64.sub_scalar d zero_shift.

Definition residual_los_disps (d model_los_disps : list float)
  : result (list float) :=
  z <- ForwardModel64.zero_shift d model_los_disps ;;
  Numpy64.sub model_los_disps (shifted_data d z).

End ResidualPlot.

(** ** EarthScope2024/3.1: cropping and the kite frame *)

Module SceneSetup.

(** A bound [k] of a Python slice with step 1 on an axis of length [len]:
    a negative bound counts from the end, and the result is clipped to the
    axis. *)
Definition slice_bound (len : nat) (k : Z) : nat :=
  Z.to_nat (if (k <? 0)%Z then Z.max 0 (k + Z.of_nat len)
            else Z.min k (Z.of_nat len)).

(** Row [i] of a two-dimensional array. *)
Definition row {A : Type} (a : ndarray A) (i : nat) : list A :=
  firstn (snd (shape a)) (skipn (i * snd (shape a)) (cells a)).

(** [a[r0:r1, c0:c1]] *)
Definition getslice {A : Type} (a : ndarray A) (r0 r1 c0 c1 : Z) : ndarray A :=
  let i0 := slice_bound (fst (shape a)) r0 in
  let i1 := slice_bound (fst (shape a)) r1 in
  let j0 := slice_bound (snd (shape a)) c0 in
  let j1 := slice_bound (snd (shape a)) c1 in
  {| shape := (i1 - i0, j1 - j0)%nat;
     cells := flat_map (fun i => firstn (j1 - j0) (skipn j0 (row a i)))
                       (seq i0 (i1 - i0)) |}.

(** [np.flip(a,0)]: the rows in reverse order. *)
Definition flip0 {A : Type} (a : ndarray A) : ndarray A :=
  {| shape := shape a;
     cells := flat_map (row a) (rev (seq 0 (fst (shape a)))) |}.

(** [losfile.GetGeoTransform()]: the six coefficients [gt[0]] to [gt[5]]. *)
Record geotransform : Type := mk_gt {
  gt0 : R; gt1 : R; gt2 : R; gt3 : R; gt4 : R; gt5 : R
}.

(** The fields of [sc.frame] the notebook sets. *)
Record frame : Type := mk_frame {
  dN : R;
  dE : R;
  llLat : R;
  llLon : R
}.

(** [if ymax==-1: ymax=nrows] *)
Definition resolve_ymax (nrows ymax : Z) : Z :=
  if (ymax =? -1)%Z then nrows else ymax.

(** [sc.frame.dN = abs(gt[5])], [sc.frame.dE = gt[1]],
    [sc.frame.llLat = gt[3]+ymax*gt[5]], [sc.frame.llLon = gt[0]+xmin*gt[1]],
    with [ymax] as resolved above. *)
Definition scene_frame (gt : geotransform) (nrows ymax xmin : Z) : frame :=
  let ymax := resolve_ymax nrows ymax in
  {| dN := Rabs (gt5 gt);
     dE := gt1 gt;
     llLat := gt3 gt + IZR ymax * gt5 gt;
     llLon := gt0 gt + IZR xmin * gt1 gt |}.

(** The crop applied to each flipped raster:
    [a[nrows-ymax:nrows-ymin,xmin:xmax]], with [ymax] as resolved above and
    [nrows = losfile.RasterYSize]. *)
Definition crop {A : Type} (nrows ymin ymax xmin xmax : Z) (a : ndarray A)
  : ndarray A :=
  let ymax := resolve_ymax nrows ymax in
  getslice a (nrows - ymax) (nrows - ymin) xmin xmax.

(** One pixel through the mask/convert lines of the loading cell: phase
    [p], water-mask value [m] and coherence [c]. *)
Definition convert_cell (use_water_mask : bool) (wavel cor_thresh : R)
  (p : px) (m : Z) (c : px) : px :=
  if px_ltb c (Val cor_thresh) then NaN
  else px_mul (if use_water_mask && (m <? 1)%Z then NaN else p)
              (Val (wavel / 4 / PI)).

(** The scene handed to kite. *)
Record scene : Type := mk_scene {
  sc_frame : frame;
  displacement : ndarray px;
  theta : ndarray R;
  phi : ndarray R
}.

(** The loading cell from the flips to the scene; the arguments are the
    rasters as GDAL reads them (origin at the upper left).

      ifg=np.flip(ifg,0) ... azi=np.flip(azi,0)
      (mask and convert)
      if ymax==-1: ymax=nrows
      sc.frame...
      sc.displacement=ifg[nrows-ymax:nrows-ymin,xmin:xmax]
      sc.theta=np.radians(90-inc[nrows-ymax:nrows-ymin,xmin:xmax])
      sc.phi=np.radians(90+azi[nrows-ymax:nrows-ymin,xmin:xmax]) *)
Definition load_scene (use_water_mask : bool) (wavel cor_thresh : R)
  (gt : geotransform) (nrows ymin ymax xmin xmax : Z)
  (ifg : ndarray px) (cor : ndarray px) (inc azi : ndarray R)
  (msk : ndarray Z) : result scene :=
  d <- KiteWorkflow.mask_convert use_water_mask wavel cor_thresh
         (flip0 ifg) (flip0 msk) (flip0 cor) ;;
  Ok {| sc_frame := scene_frame gt nrows ymax xmin;
        displacement := crop nrows ymin ymax xmin xmax d;
        theta := amap KiteWorkflow.sc_theta
                   (crop nrows ymin ymax xmin xmax (flip0 inc));
        phi := amap KiteWorkflow.sc_phi
                 (crop nrows ymin ymax xmin xmax (flip0 azi)) |}.

End SceneSetup.

(** ** EarthScope2024/0.4: loadData *)

Module RasterLoad.

Import SceneSetup.

(** The map extent [loadData] returns beside the band array:

      extent = [trans[0], trans[0] + xsize * trans[1],
                trans[3] + ysize*trans[5], trans[3]] *)
Definition extent (trans : geotransform) (xsize ysize : Z) : R * R * R * R :=
  (gt0 trans, gt0 trans + IZR xsize * gt1 trans,
   gt3 trans + IZR ysize * gt5 trans, gt3 trans).

End RasterLoad.

(** ** EarthScope2024/3.1: the long-lat variant of the okinv file *)

Module LongLatFile.

Import KiteWorkflow.

(** [okinv_data_ll=np.column_stack((xyll,qt.leaf_means,losx,losy,losz,dataptid))]:
    [xyll] is itself the stack of the longitude and the latitude column,
    which go into the new stack as they are. *)
Definition okinv_data_ll (reflat reflon : R) (qt : quadtree)
  : result (list (list R)) :=
  xy <- xyll reflat reflon qt ;;
  column_stack [map fst xy; map snd xy;
                leaf_means qt; losx qt; losy qt; losz qt;
                map INR (dataptid qt)].

(** [np.savetxt(outfile,okinv_data_ll,fmt='%f %f %f %f %f %f %d')] *)
Definition write_okinv_ll (pct_f : R -> string) (reflat reflon : R)
  (qt : quadtree) : result (list string) :=
  rows <- okinv_data_ll reflat reflon qt ;; savetxt pct_f rows.

End LongLatFile.

(** * Properties *)

(** ** The line-of-sight vector *)

Section LineOfSight.

Import KiteWorkflow.

Lemma los_square_sum (theta phi : R) :
  los_x theta phi * los_x theta phi
  + los_y theta phi * los_y theta phi
  + los_z theta * los_z theta = 1.
Proof.
  unfold los_x, los_y, los_z.
  pose proof (sin2_cos2 theta) as Ht.
  pose proof (sin2_cos2 phi) as Hp.
  unfold Rsqr in Ht, Hp.
  replace (cos theta * - cos phi * (cos theta * - cos phi)
           + cos theta * - sin phi * (cos theta * - sin phi)
           + - sin theta * - sin theta)
    with (cos theta * cos theta * (sin phi * sin phi + cos phi * cos phi)
          + sin theta * sin theta) by ring.
  rewrite Hp. lra.
Qed.

Lemma los_magnitude_any (theta phi : R) :
  magnitude (los_x theta phi) (los_y theta phi) (los_z theta) = 1.
Proof.
  unfold magnitude. rewrite los_square_sum. apply sqrt_1.
Qed.



(** Every leaf of a quadtree gets a unit vector. *)
Lemma los_vectors_unit (qt : quadtree) (i : nat) (x y z : R) :
  nth_error (losx qt) i = Some x ->
  nth_error (losy qt) i = Some y ->
  nth_error (losz qt) i = Some z ->
  magnitude x y z = 1.
Proof.
  unfold losx, losy, losz, leaf_thetas, leaf_phis.
  revert i. induction qt as [|l qt IH]; intros [|i]; simpl; try discriminate.
  - intros [= <-] [= <-] [= <-]. apply los_magnitude_any.
  - apply IH.
Qed.

(** ** The angle convention *)

Lemma radians_90 : radians 90 = PI / 2.
Proof. unfold radians. field. Qed.

Lemma sc_theta_complement (inc : R) : sc_theta inc = PI / 2 - radians inc.
Proof. unfold sc_theta, radians. field. Qed.

Lemma sc_phi_quarter_turn (azi : R) : sc_phi azi = PI / 2 + radians azi.
Proof. unfold sc_phi, radians. field. Qed.

(** C7, as stated, fails: an incidence angle of 30 degrees from the vertical
    gives theta = pi/3, not pi/6. *)
Lemma theta_is_not_incidence : sc_theta 30 <> radians 30.
Proof.
  unfold sc_theta, radians. pose proof PI_RGT_0 as Hpi. lra.
Qed.

(** C7, amended.  theta is the elevation of the look vector above the
    horizontal: for an incidence angle inc (degrees from the vertical)
    theta = pi/2 - inc in radians, and for the azimuth band azi (degrees)
    phi = pi/2 + azi in radians.  The line-of-sight components are then
    sin(inc) sin(azi), - sin(inc) cos(azi) and - cos(inc). *)
Theorem theta_phi_convention (inc azi : R) :
  sc_theta inc = PI / 2 - radians inc /\
  sc_phi azi = PI / 2 + radians azi /\
  los_x (sc_theta inc) (sc_phi azi) = sin (radians inc) * sin (radians azi) /\
  los_y (sc_theta inc) (sc_phi azi) = - (sin (radians inc) * cos (radians azi)) /\
  los_z (sc_theta inc) = - cos (radians inc).
Proof.
  rewrite sc_theta_complement, sc_phi_quarter_turn.
  unfold los_x, los_y, los_z.
  rewrite cos_shift, sin_shift.
  rewrite <- (cos_sin (radians azi)).
  rewrite (sin_cos (radians azi)).
  repeat split; ring.
Qed.

End LineOfSight.

(** ** The mask/convert stage *)

Section MaskConvert.

Import MaskConvertSpec.

Lemma shape_eqb_spec (s t : nat * nat) : shape_eqb s t = true <-> s = t.
Proof.
  destruct s as [a b], t as [c d]. unfold shape_eqb. simpl.
  rewrite andb_true_iff, !Nat.eqb_eq. split.
  - intros [-> ->]. reflexivity.
  - intros [= -> ->]. split; reflexivity.
Qed.

Lemma setitem_mask_ok (a : ndarray px) (mask : ndarray bool) (v : px) :
  shape mask = shape a ->
  setitem_mask a mask v
  = Ok {| shape := shape a; cells := put_where (cells a) (cells mask) v |}.
Proof.
  intros H. unfold setitem_mask.
  apply shape_eqb_spec in H. rewrite H. reflexivity.
Qed.

Lemma setitem_mask_raise (a : ndarray px) (mask : ndarray bool) (v : px) :
  shape mask <> shape a -> setitem_mask a mask v = Raise IndexError.
Proof.
  intros H. unfold setitem_mask.
  destruct (shape_eqb (shape mask) (shape a)) eqn:E; [|reflexivity].
  apply shape_eqb_spec in E. contradiction.
Qed.

Lemma nth_error_put_where (xs : list px) (ms : list bool) (v : px) (k : nat)
  (x : px) (m : bool) :
  nth_error xs k = Some x ->
  nth_error ms k = Some m ->
  nth_error (put_where xs ms v) k = Some (if m then v else x).
Proof.
  revert ms k. induction xs as [|x0 xs IH]; intros [|m0 ms] [|k]; simpl;
    try discriminate.
  - intros [= ->] [= ->]. reflexivity.
  - apply IH.
Qed.

Lemma item_defined {A : Type} (a : ndarray A) (i j : nat) :
  wf_ndarray a -> (i < fst (shape a))%nat -> (j < snd (shape a))%nat ->
  exists x, item a i j = Some x.
Proof.
  unfold wf_ndarray, item. intros Hwf Hi Hj.
  destruct (nth_error (cells a) (i * snd (shape a) + j)) eqn:E.
  - eauto.
  - apply nth_error_None in E. nia.
Qed.

Lemma px_ltb_lt (a b : px) : px_ltb a b = true <-> px_lt a b.
Proof.
  destruct a as [|x], b as [|y]; simpl; try (split; [discriminate|tauto]).
  destruct (Rlt_dec x y); split; auto; discriminate.
Qed.

Lemma scale_factor (wavel : R) : wavel / 4 / PI = wavel / (4 * PI).
Proof. pose proof PI_neq0. field. assumption. Qed.

(** Masking commutes with the change of unit: NaN times a scalar is NaN. *)
Lemma put_where_scale (xs : list px) (ms : list bool) (k : R) :
  put_where (map (fun x => px_mul x (Val k)) xs) ms NaN
  = map (fun x => px_mul x (Val k)) (put_where xs ms NaN).
Proof.
  revert ms. induction xs as [|x xs IH]; intros [|m ms]; simpl; try reflexivity.
  rewrite IH. destruct m; reflexivity.
Qed.

(** One pixel through the two orders of the three steps. *)
Lemma mask_then_scale (p : px) (k : R) (b : bool) :
  px_mul (if b then NaN else p) (Val k) = if b then NaN else px_mul p (Val k).
Proof. destruct b; reflexivity. Qed.

Lemma converted_intro (wavel cor_thresh : R) (p c : px) (water : option Z)
  (bw bc : bool) :
  (bw = true <-> exists m, water = Some m /\ (m < 1)%Z) ->
  bc = px_ltb c (Val cor_thresh) ->
  converted wavel cor_thresh p water c
    (if bc then NaN else if bw then NaN else px_mul p (Val (wavel / 4 / PI))).
Proof.
  intros Hw ->. rewrite scale_factor. unfold converted, masked. split.
  - intros [Hc|Hm].
    + apply px_ltb_lt in Hc. rewrite Hc. reflexivity.
    + apply Hw in Hm. rewrite Hm. destruct (px_ltb _ _); reflexivity.
  - intros Hn.
    destruct (px_ltb c (Val cor_thresh)) eqn:Ec.
    + exfalso. apply Hn. left. apply px_ltb_lt. exact Ec.
    + destruct bw.
      * exfalso. apply Hn. right. apply Hw. reflexivity.
      * reflexivity.
Qed.

(** C4.  On rasters of one shape the mask/convert lines of both notebooks
    succeed with the same grid, of the shape of the input, in which every
    pixel whose coherence is strictly below the threshold or whose water-
    mask value is strictly below 1 is NaN and every other pixel is the
    input phase times wavelength / (4 pi).  Without the water mask only the
    coherence test masks. *)
Theorem mask_convert_pixels (wavel cor_thresh : R)
  (ifg : ndarray px) (msk : ndarray Z) (cor : ndarray px) :
  wf_ndarray ifg -> wf_ndarray msk -> wf_ndarray cor ->
  shape msk = shape ifg -> shape cor = shape ifg ->
  exists out out0,
    KiteWorkflow.mask_convert true wavel cor_thresh ifg msk cor = Ok out /\
    KiteUNAVCO.mask_convert wavel cor_thresh ifg msk cor = Ok out /\
    KiteWorkflow.mask_convert false wavel cor_thresh ifg msk cor = Ok out0 /\
    shape out = shape ifg /\ shape out0 = shape ifg /\
    forall i j, (i < fst (shape ifg))%nat -> (j < snd (shape ifg))%nat ->
      exists p m c q q0,
        item ifg i j = Some p /\ item msk i j = Some m /\
        item cor i j = Some c /\
        item out i j = Some q /\ item out0 i j = Some q0 /\
        converted wavel cor_thresh p (Some m) c q /\
        converted wavel cor_thresh p None c q0.
Proof.
  intros Wi Wm Wc Sm Sc.
  unfold KiteWorkflow.mask_convert, KiteUNAVCO.mask_convert.
  rewrite (setitem_mask_ok ifg (lt_int msk 1) NaN) by exact Sm.
  rewrite (setitem_mask_ok (imul ifg _) (lt_int msk 1) NaN) by exact Sm.
  cbn [bind].
  rewrite !setitem_mask_ok by exact Sc.
  cbn [shape cells imul amap lt_int lt_float].
  eexists. eexists.
  split; [reflexivity|].
  split.
  { rewrite put_where_scale. reflexivity. }
  split; [reflexivity|].
  split; [reflexivity|]. split; [reflexivity|].
  intros i j Hi Hj.
  destruct (@item_defined _ ifg i j Wi Hi Hj) as [p Hp].
  destruct (@item_defined _ msk i j Wm) as [m Hm]; try (rewrite Sm; assumption).
  destruct (@item_defined _ cor i j Wc) as [c Hc]; try (rewrite Sc; assumption).
  exists p, m, c.
  unfold item in *. cbn [shape cells]. rewrite Sm in Hm |- *.
  rewrite Sc in Hc |- *.
  set (k := (i * snd (shape ifg) + j)%nat) in *.
  eexists. eexists.
  split; [exact Hp|]. split; [exact Hm|]. split; [exact Hc|].
  split.
  { apply nth_error_put_where.
    - apply map_nth_error. apply nth_error_put_where.
      + exact Hp.
      + apply map_nth_error. exact Hm.
    - apply map_nth_error. exact Hc. }
  split.
  { apply nth_error_put_where.
    - apply map_nth_error. exact Hp.
    - apply map_nth_error. exact Hc. }
  split.
  - rewrite mask_then_scale. apply converted_intro; [|reflexivity].
    rewrite Z.ltb_lt. split.
    + intros H. exists m. split; [reflexivity|exact H].
    + intros [m' [[= <-] H]]. exact H.
  - change (px_mul p (Val (wavel / 4 / PI)))
      with (if false then NaN else px_mul p (Val (wavel / 4 / PI))).
    apply converted_intro; [|reflexivity].
    split; [discriminate|]. intros [m' [H _]]. discriminate.
Qed.

Lemma mask_convert_pixels_witness :
  let ifg := mk_ndarray (1, 2)%nat [Val 2; Val 4] in
  let msk := mk_ndarray (1, 2)%nat [1%Z; 0%Z] in
  let cor := mk_ndarray (1, 2)%nat [Val 1; Val 1] in
  exists out,
    KiteWorkflow.mask_convert true 1 (1 / 2) ifg msk cor = Ok out /\
    item out 0 0 = Some (Val (2 * (1 / (4 * PI)))) /\
    item out 0 1 = Some NaN.
Proof.
  intros ifg msk cor.
  destruct (@mask_convert_pixels 1 (1 / 2) ifg msk cor)
    as (out & out0 & H1 & _ & _ & _ & _ & Hpix); try reflexivity.
  exists out. split; [exact H1|]. split.
  - destruct (Hpix 0%nat 0%nat) as (p & m & c & q & q0 & Hp & Hm & Hc & Hq & _ & [_ Hun] & _);
      [simpl; lia | simpl; lia |].
    injection Hp as <-. injection Hm as <-. injection Hc as <-.
    rewrite Hq. f_equal. apply Hun.
    intros [Hlt | [m [[= <-] Hlt]]]; [simpl in Hlt; lra | lia].
  - destruct (Hpix 0%nat 1%nat) as (p & m & c & q & q0 & Hp & Hm & Hc & Hq & _ & [Hmask _] & _);
      [simpl; lia | simpl; lia |].
    injection Hm as <-.
    rewrite Hq. f_equal. apply Hmask.
    right. exists 0%Z. split; [reflexivity | lia].
Defined.

(** The outcome of each variant, by the shapes alone. *)
Lemma workflow_outcome (w : bool) (wavel cor_thresh : R)
  (ifg : ndarray px) (msk : ndarray Z) (cor : ndarray px) :
  let good := (w = true -> shape msk = shape ifg) /\ shape cor = shape ifg in
  (good /\ exists out,
      KiteWorkflow.mask_convert w wavel cor_thresh ifg msk cor = Ok out) \/
  (~ good /\
   KiteWorkflow.mask_convert w wavel cor_thresh ifg msk cor = Raise IndexError).
Proof.
  unfold KiteWorkflow.mask_convert, setitem_mask.
  cbn [shape cells imul amap lt_int lt_float].
  destruct w.
  - destruct (shape_eqb (shape msk) (shape ifg)) eqn:Em; cbn [bind shape].
    + apply shape_eqb_spec in Em.
      destruct (shape_eqb (shape cor) (shape ifg)) eqn:Ec.
      * apply shape_eqb_spec in Ec. left. split; [tauto | eauto].
      * right. split; [|reflexivity]. intros [_ H].
        apply shape_eqb_spec in H. congruence.
    + right. split; [|reflexivity]. intros [H _].
      specialize (H eq_refl). apply shape_eqb_spec in H. congruence.
  - cbn [bind shape].
    destruct (shape_eqb (shape cor) (shape ifg)) eqn:Ec.
    + apply shape_eqb_spec in Ec. left. split; [|eauto].
      split; [discriminate | exact Ec].
    + right. split; [|reflexivity]. intros [_ H].
      apply shape_eqb_spec in H. congruence.
Qed.

Lemma unavco_outcome (wavel cor_thresh : R)
  (d : ndarray px) (msk : ndarray Z) (cor : ndarray px) :
  let good := shape msk = shape d /\ shape cor = shape d in
  (good /\ exists out,
      KiteUNAVCO.mask_convert wavel cor_thresh d msk cor = Ok out) \/
  (~ good /\
   KiteUNAVCO.mask_convert wavel cor_thresh d msk cor = Raise IndexError).
Proof.
  unfold KiteUNAVCO.mask_convert, setitem_mask.
  cbn [shape cells imul amap lt_int lt_float].
  destruct (shape_eqb (shape msk) (shape d)) eqn:Em; cbn [bind shape].
  - apply shape_eqb_spec in Em.
    destruct (shape_eqb (shape cor) (shape d)) eqn:Ec.
    + apply shape_eqb_spec in Ec. left. split; [tauto | eauto].
    + right. split; [|reflexivity]. intros [_ H].
      apply shape_eqb_spec in H. congruence.
  - right. split; [|reflexivity]. intros [H _].
    apply shape_eqb_spec in H. congruence.
Qed.

(** C8.  The mask/convert lines raise the shape-mismatch error (numpy's
    IndexError) exactly when the displacement, coherence and water-mask
    rasters do not all have one shape, and succeed exactly when they do;
    there is no other outcome.  This holds for both notebooks; with the
    water mask switched off, the coherence raster alone is compared. *)
Theorem mask_convert_errors (wavel cor_thresh : R)
  (ifg : ndarray px) (msk : ndarray Z) (cor : ndarray px) :
  let matching := shape msk = shape ifg /\ shape cor = shape ifg in
  let workflow := KiteWorkflow.mask_convert true wavel cor_thresh ifg msk cor in
  let unavco := KiteUNAVCO.mask_convert wavel cor_thresh ifg msk cor in
  let unmasked := KiteWorkflow.mask_convert false wavel cor_thresh ifg msk cor in
  (workflow = Raise IndexError <-> ~ matching) /\
  ((exists out, workflow = Ok out) <-> matching) /\
  (unavco = Raise IndexError <-> ~ matching) /\
  ((exists out, unavco = Ok out) <-> matching) /\
  (unmasked = Raise IndexError <-> shape cor <> shape ifg) /\
  ((exists out, unmasked = Ok out) <-> shape cor = shape ifg).
Proof.
  intros matching workflow unavco unmasked.
  destruct (workflow_outcome true wavel cor_thresh ifg msk cor)
    as [[G [o Ho]] | [G Ho]];
  destruct (unavco_outcome wavel cor_thresh ifg msk cor)
    as [[G' [o' Ho']] | [G' Ho']];
  destruct (workflow_outcome false wavel cor_thresh ifg msk cor)
    as [[G0 [o0 Ho0]] | [G0 Ho0]];
  fold workflow in Ho; fold unavco in Ho'; fold unmasked in Ho0;
  rewrite Ho, Ho', Ho0; unfold matching;
  repeat split; intros; try discriminate; try tauto; eauto;
  try (match goal with H : exists _, Raise _ = Ok _ |- _ =>
         destruct H; discriminate end);
  try (exfalso; intuition congruence);
  try (match goal with
       | G : ~ ((false = true -> _) /\ _) |- _ <> _ =>
           intro; apply G; split; [discriminate | assumption]
       end).
Qed.

End MaskConvert.

(** ** Penalties of the forward model *)

Section Penalties.

Import ForwardModel.

(** Real vectors inside the float arrays. *)
Lemma zip_with_sub_vals (obs pred : list R) :
  zip_with px_sub (map Val obs) (map Val pred) = map Val (residuals obs pred).
Proof.
  revert pred. induction obs as [|o obs IH]; intros [|p pred]; simpl;
    try reflexivity.
  rewrite IH. reflexivity.
Qed.

Lemma sub_vals (obs pred : list R) :
  length obs = length pred ->
  sub (map Val obs) (map Val pred) = Ok (map Val (residuals obs pred)).
Proof.
  intros H. unfold sub, broadcast2.
  rewrite !length_map, H, Nat.eqb_refl, zip_with_sub_vals. reflexivity.
Qed.

(** Broadcasting real vectors leaves no NaN behind either. *)
Lemma is_val_sub (x y : px) : is_val x -> is_val y -> is_val (px_sub x y).
Proof. intros [a ->] [b ->]. eexists. reflexivity. Qed.

Lemma vals_are_val (rs : list R) : Forall is_val (map Val rs).
Proof.
  induction rs as [|r rs IH]; constructor; [eexists; reflexivity | exact IH].
Qed.

Lemma val_are_vals (xs : list px) :
  Forall is_val xs -> exists rs, xs = map Val rs.
Proof.
  induction 1 as [|x xs [r ->] _ [rs ->]].
  - exists []. reflexivity.
  - exists (r :: rs). reflexivity.
Qed.

Lemma zip_with_sub_val (xs ys : list px) :
  Forall is_val xs -> Forall is_val ys -> Forall is_val (zip_with px_sub xs ys).
Proof.
  intros Hx. revert ys. induction Hx as [|x xs Hx _ IH]; intros ys Hy.
  - constructor.
  - destruct Hy as [|y ys Hy Hys]; simpl; constructor.
    + apply is_val_sub; assumption.
    + apply IH. exact Hys.
Qed.

Lemma broadcast_sub_val (xs ys zs : list px) :
  Forall is_val xs -> Forall is_val ys ->
  sub xs ys = Ok zs -> Forall is_val zs.
Proof.
  intros Hx Hy. unfold sub, broadcast2.
  destruct (Nat.eqb _ _).
  - intros [= <-]. apply zip_with_sub_val; assumption.
  - assert (Hl : forall y, is_val y ->
                   Forall is_val (map (fun x => px_sub x y) xs)).
    { intros y Hv. apply Forall_map.
      eapply Forall_impl; [|exact Hx]. intros x Hxv.
      apply is_val_sub; assumption. }
    assert (Hr : forall x, is_val x ->
                   Forall is_val (map (fun y => px_sub x y) ys)).
    { intros x Hv. apply Forall_map.
      eapply Forall_impl; [|exact Hy]. intros y Hyv.
      apply is_val_sub; assumption. }
    destruct xs as [|x [|x' xs]]; destruct ys as [|y [|y' ys]];
      try discriminate; intros [= <-];
      try (apply Hl; inversion Hy; assumption);
      try (apply Hr; inversion Hx; assumption);
      constructor.
Qed.

Lemma sub_vals_any (obs pred : list R) (xs : list px) :
  sub (map Val obs) (map Val pred) = Ok xs -> exists rs, xs = map Val rs.
Proof.
  intros H. apply val_are_vals.
  eapply broadcast_sub_val; [| |exact H]; apply vals_are_val.
Qed.

Lemma sub_scalar_vals (obs : list R) (z : R) :
  sub_scalar (map Val obs) (Val z) = map Val (map (fun o => o - z) obs).
Proof. unfold sub_scalar. rewrite !map_map. reflexivity. Qed.

Lemma sum_vals (rs : list R) : sum (map Val rs) = Val (total rs).
Proof.
  unfold sum, total. induction rs as [|r rs IH]; simpl; [reflexivity|].
  rewrite IH. reflexivity.
Qed.

Lemma sum_square_vals (rs : list R) :
  sum (square (map Val rs)) = Val (sum_of_squares rs).
Proof.
  unfold square, sum_of_squares. rewrite <- sum_vals, !map_map. reflexivity.
Qed.

Lemma mean_vals (rs : list R) :
  rs <> [] -> mean (map Val rs) = Val (total rs / INR (length rs)).
Proof.
  destruct rs as [|r rs]; [congruence|]. intros _.
  unfold mean. cbn [map]. rewrite <- map_cons, sum_vals, length_map.
  reflexivity.
Qed.

Lemma sum_of_squares_nonneg (rs : list R) : 0 <= sum_of_squares rs.
Proof.
  unfold sum_of_squares, total. induction rs as [|r rs IH]; simpl; [lra|].
  pose proof (Rle_0_sqr r) as H. unfold Rsqr in H. lra.
Qed.

Lemma residuals_length (obs pred : list R) :
  length obs = length pred -> length (residuals obs pred) = length obs.
Proof.
  revert pred. induction obs as [|o obs IH]; intros [|p pred]; simpl;
    try discriminate; [reflexivity|].
  intros [= H]. rewrite IH by exact H. reflexivity.
Qed.

Lemma residuals_shift (obs pred : list R) (z : R) :
  residuals (map (fun o => o - z) obs) pred
  = map (fun r => r - z) (residuals obs pred).
Proof.
  revert pred. induction obs as [|o obs IH]; intros [|p pred]; simpl;
    try reflexivity.
  rewrite IH. f_equal. ring.
Qed.

(** The three cells evaluated on real vectors of one length. *)
Lemma penalty_eval (obs pred : list R) :
  length obs = length pred ->
  penalty (map Val obs) (map Val pred)
  = Ok (Val (sum_of_squares (residuals obs pred))).
Proof.
  intros H. unfold penalty. rewrite sub_vals by exact H.
  cbn [bind]. rewrite sum_square_vals. reflexivity.
Qed.

Lemma zero_shift_eval (obs pred : list R) :
  length obs = length pred -> obs <> [] ->
  zero_shift (map Val obs) (map Val pred) = Ok (Val (mean_residual obs pred)).
Proof.
  intros H Hne. unfold zero_shift. rewrite sub_vals by exact H.
  cbn [bind]. rewrite mean_vals; [reflexivity|].
  intros E. apply (f_equal (@length R)) in E.
  rewrite residuals_length in E by exact H.
  destruct obs; [congruence | discriminate].
Qed.

Lemma penalty_zero_level_eval (obs pred : list R) :
  length obs = length pred -> obs <> [] ->
  penalty_zero_level (map Val obs) (map Val pred)
  = Ok (Val (mean_residual obs pred), Val (corrected_sum_of_squares obs pred)).
Proof.
  intros H Hne. unfold penalty_zero_level.
  rewrite zero_shift_eval by assumption. cbn [bind].
  rewrite sub_scalar_vals, sub_vals by (rewrite length_map; exact H).
  cbn [bind]. rewrite sum_square_vals. reflexivity.
Qed.

(** C6, amended.  On observed and predicted vectors without NaN, in exact
    arithmetic, the first cell returns the sum of squared residuals, which
    is never negative whatever the two vectors are (also when numpy
    broadcasts them); on vectors over one non-empty point set the second
    cell returns, in one evaluation, the mean residual
    mean(observed - predicted) as the shift and the sum of squares
    recomputed after subtracting that shift from the observations. *)
Theorem residual_contract (obs pred : list R) :
  (forall p, penalty (map Val obs) (map Val pred) = Ok p ->
             exists r, p = Val r /\ 0 <= r) /\
  (length obs = length pred ->
   penalty (map Val obs) (map Val pred)
   = Ok (Val (sum_of_squares (residuals obs pred))) /\
   (obs <> [] ->
    zero_shift (map Val obs) (map Val pred)
    = Ok (Val (mean_residual obs pred)) /\
    penalty_zero_level (map Val obs) (map Val pred)
    = Ok (Val (mean_residual obs pred),
          Val (corrected_sum_of_squares obs pred)) /\
    0 <= corrected_sum_of_squares obs pred)).
Proof.
  split.
  - intros p. unfold penalty.
    destruct (sub (map Val obs) (map Val pred)) as [xs|e] eqn:E;
      [|discriminate].
    destruct (sub_vals_any _ _ E) as [rs ->].
    cbn [bind]. rewrite sum_square_vals. intros [= <-].
    eexists. split; [reflexivity | apply sum_of_squares_nonneg].
  - intros H. split; [apply penalty_eval; exact H|].
    intros Hne. split; [apply zero_shift_eval; assumption|].
    split; [apply penalty_zero_level_eval; assumption|].
    apply sum_of_squares_nonneg.
Qed.

(** The cells on the data of two points: observations 3 and 5 against
    predictions 1 and 1. *)
Example residual_contract_witness :
  penalty [Val 3; Val 5] [Val 1; Val 1] = Ok (Val 20) /\
  penalty_zero_level [Val 3; Val 5] [Val 1; Val 1] = Ok (Val 3, Val 2).
Proof.
  destruct (residual_contract [3; 5] [1; 1]) as [_ H].
  destruct (H eq_refl) as [Hp H']. destruct H' as (_ & Hz & _); [discriminate|].
  cbn [map] in Hp, Hz. rewrite Hp, Hz.
  unfold corrected_sum_of_squares, mean_residual, sum_of_squares, total.
  cbn [residuals map fold_right length INR].
  split; repeat f_equal; field_simplify; lra.
Defined.

(** On empty vectors the shift is NaN and the penalty is the empty sum. *)
Example zero_level_empty : penalty_zero_level [] [] = Ok (NaN, Val 0).
Proof. reflexivity. Qed.

(** Shifting the residuals by a constant. *)
Lemma sum_of_squares_shift (rs : list R) (z : R) :
  sum_of_squares (map (fun r => r - z) rs)
  = sum_of_squares rs - 2 * z * total rs + INR (length rs) * (z * z).
Proof.
  unfold sum_of_squares, total.
  induction rs as [|r rs IH]; [simpl; ring|].
  cbn [map fold_right length]. rewrite IH, S_INR. ring.
Qed.

Lemma corrected_gap (obs pred : list R) :
  length obs = length pred -> obs <> [] ->
  corrected_sum_of_squares obs pred
  = sum_of_squares (residuals obs pred)
    - INR (length obs) * (mean_residual obs pred * mean_residual obs pred).
Proof.
  intros H Hne. unfold corrected_sum_of_squares.
  rewrite residuals_shift, sum_of_squares_shift.
  unfold mean_residual. rewrite residuals_length by exact H.
  assert (Hn : INR (length obs) <> 0).
  { apply not_0_INR. destruct obs; [congruence | discriminate]. }
  field. exact Hn.
Qed.

(** C9, amended.  In exact arithmetic, for observed and predicted vectors
    without NaN and of one non-zero length, the zero-level-corrected
    penalty is at most the uncorrected penalty, and the two are equal
    exactly when the mean residual is zero. *)
Theorem zero_level_improves (obs pred : list R) :
  length obs = length pred -> obs <> [] ->
  exists z p0 p1,
    zero_shift (map Val obs) (map Val pred) = Ok (Val z) /\
    penalty (map Val obs) (map Val pred) = Ok (Val p0) /\
    penalty_zero_level (map Val obs) (map Val pred) = Ok (Val z, Val p1) /\
    z = mean_residual obs pred /\
    p1 <= p0 /\
    (p1 = p0 <-> z = 0).
Proof.
  intros H Hne.
  exists (mean_residual obs pred), (sum_of_squares (residuals obs pred)),
    (corrected_sum_of_squares obs pred).
  split; [apply zero_shift_eval; assumption|].
  split; [apply penalty_eval; assumption|].
  split; [apply penalty_zero_level_eval; assumption|].
  split; [reflexivity|].
  rewrite corrected_gap by assumption.
  set (z := mean_residual obs pred). set (s := sum_of_squares _).
  assert (Hn : 0 < INR (length obs)).
  { apply lt_0_INR. destruct obs; [congruence | simpl; lia]. }
  split; [nra|]. split.
  - intros E. assert (z * z = 0) by nra. nra.
  - intros ->. ring.
Qed.

Lemma zero_level_improves_witness :
  exists z p0 p1,
    zero_shift [Val 3; Val 5] [Val 1; Val 1] = Ok (Val z) /\
    penalty [Val 3; Val 5] [Val 1; Val 1] = Ok (Val p0) /\
    penalty_zero_level [Val 3; Val 5] [Val 1; Val 1] = Ok (Val z, Val p1) /\
    p1 <= p0.
Proof.
  destruct (@zero_level_improves [3; 5] [1; 1] eq_refl)
    as (z & p0 & p1 & Hz & Hp0 & Hp1 & _ & Hle & _); [discriminate|].
  exists z, p0, p1. repeat split; assumption.
Defined.

End Penalties.

(** ** The penalty cells on binary64 numbers *)

Section PenaltiesBinary64.

Import PrimFloat.
Local Open Scope float_scope.

(** C6, as stated, fails for some pairs of input vectors.  With a NaN among
    the observations the penalty is NaN, which is not a number at or above
    zero: in the model over the reals and on binary64 numbers alike.  And
    on finite binary64 observations of size 2^1023 against predictions of
    the opposite sign the residuals overflow to plus and minus infinity, so
    that the shift comes out as NaN where the mean residual is 0. *)
Lemma penalty_not_always_nonneg :
  ~ (forall d m p, ForwardModel.penalty d m = Ok p ->
                   exists r, p = Val r /\ (0 <= r)%R) /\
  ForwardModel64.penalty [3; nan] [1; 1] = Ok nan /\
  (0 <=? nan) = false /\
  ForwardModel64.zero_shift [0x1p1023; -0x1p1023] [-0x1p1023; 0x1p1023]
  = Ok nan.
Proof.
  split.
  - intros H.
    destruct (H [Val 3%R; NaN] [Val 1%R; Val 1%R] NaN eq_refl)
      as (r & Hr & _).
    discriminate Hr.
  - repeat split; vm_compute; reflexivity.
Qed.

(** C9, as stated, fails on binary64 numbers.  For the observations
    2^53 and -0.5 against the predictions 2^53 - 1 and 0 the residuals are
    1 and -0.5 and the penalty is 1.25; the shift is 0.25, which the first
    observation absorbs (2^53 - 0.25 rounds to 2^53), so that the corrected
    residuals are 1 and -0.75 and the corrected penalty is 1.5625, above
    the uncorrected one.  And for three observations 1 against the
    predictions 1 - 2^-53, 1 + 2^-52 and 1 the shift is not zero although
    the two penalties are equal. *)
Lemma zero_level_can_raise_penalty :
  ForwardModel64.penalty [9007199254740992; -0.5] [9007199254740991; 0]
  = Ok 1.25 /\
  ForwardModel64.penalty_zero_level
    [9007199254740992; -0.5] [9007199254740991; 0]
  = Ok (0.25, 1.5625) /\
  (1.5625 <=? 1.25) = false /\
  exists z p,
    ForwardModel64.penalty
      [1; 1; 1] [0x1.fffffffffffffp-1; 0x1.0000000000001p+0; 1] = Ok p /\
    ForwardModel64.penalty_zero_level
      [1; 1; 1] [0x1.fffffffffffffp-1; 0x1.0000000000001p+0; 1]
    = Ok (z, p) /\
    (z =? 0) = false.
Proof.
  split; [vm_compute; reflexivity|].
  split; [vm_compute; reflexivity|].
  split; [vm_compute; reflexivity|].
  eexists. eexists.
  split; [vm_compute; reflexivity|].
  split; vm_compute; reflexivity.
Qed.

End PenaltiesBinary64.

(** ** multiLook *)

Section MultiLook.

Import RasterManipulation.
Open Scope Z_scope.

Variable gdal : dataset -> TranslateOptions -> option dataset.

Lemma sum_from_ext (f g : Z -> R) (lo : Z) (n : nat) :
  (forall k, lo <= k < lo + Z.of_nat n -> f k = g k) ->
  sum_from f lo n = sum_from g lo n.
Proof.
  revert lo. induction n as [|n IH]; intros lo H; [reflexivity|].
  cbn [sum_from]. rewrite (H lo) by lia. f_equal.
  apply IH. intros k Hk. apply H. lia.
Qed.

(** A block mean reads the pixels of its block only. *)
Lemma box_average_ext (ds ds' : dataset) (x0 y0 bw bh : Z) :
  (forall x y, x0 <= x < x0 + bw -> y0 <= y < y0 + bh ->
               band ds' x y = band ds x y) ->
  box_average ds' x0 y0 bw bh = box_average ds x0 y0 bw bh.
Proof.
  intros H. unfold box_average. f_equal.
  apply sum_from_ext. intros y Hy.
  apply sum_from_ext. intros x Hx.
  apply H; lia.
Qed.

Lemma multiLook_options_eval (ds : dataset) (xlooks ylooks : Z) :
  1 <= xlooks -> 1 <= ylooks ->
  multiLook_options ds xlooks ylooks
  = Ok {| width := RasterXSize ds / xlooks;
          height := RasterYSize ds / ylooks;
          srcWin := (0, 0, RasterXSize ds / xlooks * xlooks,
                     RasterYSize ds / ylooks * ylooks) |}.
Proof.
  intros Hx Hy. unfold multiLook_options, floordiv.
  destruct (Z.eqb_spec xlooks 0); [lia|].
  destruct (Z.eqb_spec ylooks 0); [lia|].
  reflexivity.
Qed.

(** A request with something to write is carried out as written. *)
Lemma Translate_block_means (ds : dataset) (o : TranslateOptions) :
  0 < width o -> 0 < height o ->
  0 < snd (fst (srcWin o)) -> 0 < snd (srcWin o) ->
  exists out,
    Translate gdal ds o = Ok out /\
    RasterXSize out = width o /\ RasterYSize out = height o /\
    forall i j,
      band out i j
      = box_average ds
          (fst (fst (fst (srcWin o))) + i * (snd (fst (srcWin o)) / width o))
          (snd (fst (fst (srcWin o))) + j * (snd (srcWin o) / height o))
          (snd (fst (srcWin o)) / width o) (snd (srcWin o) / height o).
Proof.
  unfold Translate.
  destruct (srcWin o) as [[[xoff yoff] xsize] ysize]. cbn [fst snd].
  intros Hw Hh Hx Hy.
  destruct (Z_lt_dec 0 (width o)) as [Hw'|Hw']; [|contradiction].
  destruct (Z_lt_dec 0 (height o)) as [Hh'|Hh']; [|contradiction].
  destruct (Z.ltb_spec 0 xsize); [|lia].
  destruct (Z.ltb_spec 0 ysize); [|lia].
  cbn [andb]. eexists. split; [reflexivity|].
  cbn [RasterXSize RasterYSize band]. repeat split.
Qed.

Lemma Translate_error (ds : dataset) (o : TranslateOptions) (e : exn) :
  Translate gdal ds o = Raise e -> e = RuntimeError.
Proof.
  assert (U : Translate_unset gdal ds o = Raise e -> e = RuntimeError).
  { unfold Translate_unset. destruct (gdal ds o); [discriminate|].
    intros [= <-]. reflexivity. }
  unfold Translate.
  destruct (srcWin o) as [[[xoff yoff] xsize] ysize].
  destruct (Z_lt_dec 0 (width o)); [|exact U].
  destruct (Z_lt_dec 0 (height o)); [|exact U].
  destruct ((0 <? xsize) && (0 <? ysize)); [discriminate|exact U].
Qed.

(** With look factors within the raster size [multiLook] returns the raster
    of block means. *)
Lemma multiLook_eval (ds : dataset) (xlooks ylooks : Z) :
  1 <= xlooks <= RasterXSize ds -> 1 <= ylooks <= RasterYSize ds ->
  exists out,
    multiLook gdal ds xlooks ylooks = Ok out /\
    RasterXSize out = RasterXSize ds / xlooks /\
    RasterYSize out = RasterYSize ds / ylooks /\
    forall i j,
      band out i j = box_average ds (i * xlooks) (j * ylooks) xlooks ylooks.
Proof.
  intros Hx Hy.
  assert (PX : 1 <= RasterXSize ds / xlooks)
    by (apply Z.div_le_lower_bound; lia).
  assert (PY : 1 <= RasterYSize ds / ylooks)
    by (apply Z.div_le_lower_bound; lia).
  destruct (@Translate_block_means ds
              {| width := RasterXSize ds / xlooks;
                 height := RasterYSize ds / ylooks;
                 srcWin := (0, 0, RasterXSize ds / xlooks * xlooks,
                            RasterYSize ds / ylooks * ylooks) |})
    as (out & Hout & HX & HY & Hband);
    cbn [width height srcWin fst snd] in *; try nia.
  exists out. split.
  { unfold multiLook. rewrite multiLook_options_eval by lia. exact Hout. }
  split; [exact HX|]. split; [exact HY|].
  intros i j. rewrite Hband, !Z.add_0_l.
  replace (RasterXSize ds / xlooks * xlooks / (RasterXSize ds / xlooks))
    with xlooks by (rewrite Z.mul_comm, Z.div_mul; lia).
  replace (RasterYSize ds / ylooks * ylooks / (RasterYSize ds / ylooks))
    with ylooks by (rewrite Z.mul_comm, Z.div_mul; lia).
  reflexivity.
Qed.

(** An output pixel of [multiLook] is the mean of its own block of looks. *)
Lemma multiLook_pixel (ds out : dataset) (xlooks ylooks i j : Z) :
  1 <= xlooks <= RasterXSize ds -> 1 <= ylooks <= RasterYSize ds ->
  multiLook gdal ds xlooks ylooks = Ok out ->
  band out i j = box_average ds (i * xlooks) (j * ylooks) xlooks ylooks.
Proof.
  intros Hx Hy H.
  destruct (@multiLook_eval ds xlooks ylooks Hx Hy)
    as (out' & Hout' & _ & _ & Hband).
  rewrite H in Hout'. injection Hout' as <-. apply Hband.
Qed.

(** C10, amended.  For look factors with 1 <= xlooks <= xSize and
    1 <= ylooks <= ySize, [multiLook] asks for and produces an output of
    floor(xSize/xlooks) by floor(ySize/ylooks) pixels from the source window
    of floor(xSize/xlooks)*xlooks by floor(ySize/ylooks)*ylooks pixels at
    the origin; every output pixel is the mean of its block of xlooks by
    ylooks source pixels; the window lies inside the raster and leaves out
    the xSize mod xlooks trailing columns and ySize mod ylooks trailing
    rows, which change no output pixel. *)
Theorem multiLook_window (ds : dataset) (xlooks ylooks : Z) :
  1 <= xlooks <= RasterXSize ds -> 1 <= ylooks <= RasterYSize ds ->
  let outXSize := RasterXSize ds / xlooks in
  let outYSize := RasterYSize ds / ylooks in
  exists o out,
    multiLook_options ds xlooks ylooks = Ok o /\
    multiLook gdal ds xlooks ylooks = Ok out /\
    width o = outXSize /\ height o = outYSize /\
    srcWin o = (0, 0, outXSize * xlooks, outYSize * ylooks) /\
    RasterXSize out = outXSize /\ RasterYSize out = outYSize /\
    1 <= outXSize /\ 1 <= outYSize /\
    RasterXSize ds - outXSize * xlooks = RasterXSize ds mod xlooks /\
    RasterYSize ds - outYSize * ylooks = RasterYSize ds mod ylooks /\
    0 <= RasterXSize ds mod xlooks < xlooks /\
    0 <= RasterYSize ds mod ylooks < ylooks /\
    (forall i j, 0 <= i < outXSize -> 0 <= j < outYSize ->
       band out i j = box_average ds (i * xlooks) (j * ylooks) xlooks ylooks /\
       forall x y, i * xlooks <= x < i * xlooks + xlooks ->
                   j * ylooks <= y < j * ylooks + ylooks ->
                   in_srcWin o x y) /\
    (forall x y, outXSize * xlooks <= x \/ outYSize * ylooks <= y ->
                 ~ in_srcWin o x y) /\
    (forall ds',
       RasterXSize ds' = RasterXSize ds -> RasterYSize ds' = RasterYSize ds ->
       (forall x y, in_srcWin o x y -> band ds' x y = band ds x y) ->
       exists out',
         multiLook gdal ds' xlooks ylooks = Ok out' /\
         RasterXSize out' = outXSize /\ RasterYSize out' = outYSize /\
         forall i j, 0 <= i < outXSize -> 0 <= j < outYSize ->
                     band out' i j = band out i j).
Proof.
  intros Hx Hy outXSize outYSize.
  assert (Hwin : forall i j x y,
             0 <= i < outXSize -> 0 <= j < outYSize ->
             i * xlooks <= x < i * xlooks + xlooks ->
             j * ylooks <= y < j * ylooks + ylooks ->
             (0 <= x < 0 + outXSize * xlooks) /\
             (0 <= y < 0 + outYSize * ylooks)).
  { intros i j x y Hi Hj Hxr Hyr.
    assert ((i + 1) * xlooks <= outXSize * xlooks)
      by (apply Z.mul_le_mono_nonneg_r; lia).
    assert ((j + 1) * ylooks <= outYSize * ylooks)
      by (apply Z.mul_le_mono_nonneg_r; lia).
    assert (0 <= i * xlooks) by (apply Z.mul_nonneg_nonneg; lia).
    assert (0 <= j * ylooks) by (apply Z.mul_nonneg_nonneg; lia).
    lia. }
  destruct (@multiLook_eval ds xlooks ylooks Hx Hy)
    as (out & Hout & HX & HY & Hband).
  eexists. exists out.
  split; [apply multiLook_options_eval; lia|].
  split; [exact Hout|].
  cbn [width height srcWin].
  split; [reflexivity|]. split; [reflexivity|]. split; [reflexivity|].
  split; [exact HX|]. split; [exact HY|].
  split; [apply Z.div_le_lower_bound; lia|].
  split; [apply Z.div_le_lower_bound; lia|].
  split; [rewrite Z.mod_eq by lia; fold outXSize; lia|].
  split; [rewrite Z.mod_eq by lia; fold outYSize; lia|].
  split; [apply Z.mod_pos_bound; lia|].
  split; [apply Z.mod_pos_bound; lia|].
  split; [|split].
  - intros i j Hi Hj. split.
    + apply Hband.
    + intros x y Hxr Hyr. unfold in_srcWin. cbn [srcWin].
      apply (Hwin i j x y); assumption.
  - intros x y Hbeyond. unfold in_srcWin. cbn [srcWin].
    fold outXSize outYSize. lia.
  - intros ds' Hsx Hsy Hagree.
    destruct (@multiLook_eval ds' xlooks ylooks)
      as (out' & Hout' & HX' & HY' & Hband');
      try (rewrite ?Hsx, ?Hsy; assumption).
    exists out'. split; [exact Hout'|].
    split; [rewrite HX', Hsx; reflexivity|].
    split; [rewrite HY', Hsy; reflexivity|].
    intros i j Hi Hj.
    rewrite Hband', Hband.
    apply box_average_ext. intros x y Hxr Hyr.
    apply Hagree. unfold in_srcWin. cbn [srcWin]. fold outXSize outYSize.
    apply (Hwin i j x y); try assumption; lia.
Qed.

End MultiLook.

Section MultiLookExamples.

Import RasterManipulation.
Open Scope Z_scope.

(** C10, as stated, fails when a look factor exceeds the raster size: for a
    5 by 3 raster and looks 6 by 4 no output of floor(5/6) by floor(3/4)
    pixels is produced, whatever GDAL makes of the request. *)
Lemma multiLook_beyond_raster_size :
  ~ exists gdal out,
      multiLook gdal (mk_dataset 5 3 (fun x y => IZR (x + 10 * y))
                        (conj eq_refl eq_refl)) 6 4 = Ok out /\
      RasterXSize out = 5 / 6 /\ RasterYSize out = 3 / 4.
Proof.
  intros (g & out & _ & HX & _).
  pose proof (raster_size out) as [PX _].
  rewrite HX in PX. cbn in PX. lia.
Qed.

(** A 5 by 3 raster with 2 by 2 looks: a 2 by 1 output, whose second pixel
    is the mean of columns 2 and 3 of rows 0 and 1; column 4 and row 2 are
    left out. *)
Lemma multiLook_window_witness :
  let ds := mk_dataset 5 3 (fun x y => IZR (x + 10 * y))
              (conj eq_refl eq_refl) in
  exists out,
    multiLook (fun _ _ => None) ds 2 2 = Ok out /\
    RasterXSize out = 2 /\ RasterYSize out = 1 /\
    band out 1 0 = 7.5%R.
Proof.
  intros ds.
  destruct (@multiLook_window (fun _ _ => None) ds 2 2) as
    (o & out & _ & Hout & _ & _ & _ & HX & HY & _ & _ & _ & _ & _ & _
       & Hpix & _);
    [cbn; lia | cbn; lia |].
  exists out. split; [exact Hout|].
  split; [exact HX|]. split; [exact HY|].
  destruct (Hpix 1 0) as [Hb _]; [cbn; lia | cbn; lia |].
  rewrite Hb. unfold box_average.
  change (Z.to_nat 2) with 2%nat. cbn. lra.
Defined.

End MultiLookExamples.

(** ** The okinv file *)

Section OkinvFile.

Import KiteWorkflow.
Open Scope string_scope.

Lemma fields_single (s : string) : has_space s = false -> fields s = [s].
Proof.
  induction s as [|c s IH]; simpl; [reflexivity|].
  intros H. apply orb_false_iff in H. destruct H as [Hc Hs].
  rewrite Hc, IH by exact Hs. reflexivity.
Qed.

Lemma fields_cons (s t : string) :
  has_space s = false -> fields (s ++ String " " t) = s :: fields t.
Proof.
  induction s as [|c s IH]; simpl; [reflexivity|].
  intros H. apply orb_false_iff in H. destruct H as [Hc Hs].
  rewrite Hc, IH by exact Hs. reflexivity.
Qed.

Lemma digits_no_space (d : Decimal.uint) :
  has_space (NilEmpty.string_of_uint d) = false.
Proof. induction d; simpl; auto. Qed.

Lemma decimal_no_space (z : Z) :
  has_space (NilZero.string_of_int (Z.to_int z)) = false.
Proof.
  destruct z as [|p|p]; simpl; [reflexivity| |];
    unfold NilZero.string_of_uint;
    destruct (Pos.to_uint p) eqn:E; try reflexivity;
    rewrite <- E; apply digits_no_space.
Qed.

(** [%d] of an id that went through the float array prints the id. *)
Lemma pct_d_id (k : nat) :
  pct_d (INR k) = NilZero.string_of_int (Z.to_int (Z.of_nat k)).
Proof.
  unfold pct_d, trunc.
  destruct (Rle_dec 0 (INR k)) as [_|H]; [|destruct H; apply pos_INR].
  rewrite Int_part_INR. reflexivity.
Qed.

Lemma zip_with_map {A B C D : Type} (f : B -> C -> D) (g : A -> B)
  (h : A -> C) (l : list A) :
  zip_with f (map g l) (map h l) = map (fun a => f (g a) (h a)) l.
Proof. induction l as [|a l IH]; simpl; [|rewrite IH]; reflexivity. Qed.

Lemma dataptid_seq (qt : quadtree) : dataptid qt = seq 1 (length qt).
Proof.
  unfold dataptid, arange, losx, leaf_thetas, leaf_phis.
  rewrite zip_with_map, length_map. f_equal. lia.
Qed.

Lemma mapM_map {A B C : Type} (f : B -> result C) (g : A -> B) (h : A -> C)
  (xs : list A) :
  (forall x, In x xs -> f (g x) = Ok (h x)) ->
  mapM f (map g xs) = Ok (map h xs).
Proof.
  induction xs as [|x xs IH]; intros H; [reflexivity|].
  cbn [map mapM]. rewrite (H x) by (left; reflexivity). cbn [bind].
  rewrite IH by (intros y Hy; apply H; right; exact Hy). reflexivity.
Qed.

Lemma combine_map {A B C : Type} (f : A -> B) (g : A -> C) (l : list A) :
  combine (map f l) (map g l) = map (fun a => (f a, g a)) l.
Proof. induction l as [|a l IH]; simpl; [|rewrite IH]; reflexivity. Qed.

(** Without leaves the focal points cannot be subscripted. *)
Lemma xyll_no_leaf (reflat reflon : R) : xyll reflat reflon [] = Raise IndexError.
Proof. reflexivity. Qed.

(** With leaves, [xyll] holds the longitude and latitude of each leaf
    centre: its focal point moved by the reference corner. *)
Lemma xyll_eval (reflat reflon : R) (qt : quadtree) :
  qt <> [] ->
  xyll reflat reflon qt
  = Ok (map (fun l => (fst (focal_point l) + reflon,
                       snd (focal_point l) + reflat)%R) qt).
Proof.
  intros Hqt. destruct qt as [|l qt]; [contradiction|].
  unfold xyll, focal_points_column, leaf_focal_points.
  cbn [map bind combine]. do 2 f_equal.
  rewrite !map_map. apply combine_map.
Qed.

Variable from_latlon : list R -> list R -> result (list R * list R).
Variable pct_f : R -> string.

(** The projection returns one easting and one northing per point. *)
Hypothesis from_latlon_shape :
  forall lat lon e n,
    from_latlon lat lon = Ok (e, n) ->
    length e = length lat /\ length n = length lat.

(** A formatted float has no blank in it. *)
Hypothesis pct_f_no_space : forall x, has_space (pct_f x) = false.

(** The call the notebook makes of the projection: latitudes first. *)
Lemma xym_eval (reflat reflon : R) (qt : quadtree) :
  qt <> [] ->
  xym from_latlon reflat reflon qt
  = from_latlon (map (fun l => snd (focal_point l) + reflat)%R qt)
                (map (fun l => fst (focal_point l) + reflon)%R qt).
Proof.
  intros Hqt. unfold xym. rewrite xyll_eval by exact Hqt. cbn [bind].
  rewrite !map_map. reflexivity.
Qed.

(** Row [i] of the stacked array. *)
Lemma okinv_data_eval (reflat reflon : R) (qt : quadtree) (e n : list R) :
  qt <> [] ->
  from_latlon (map (fun l => snd (focal_point l) + reflat)%R qt)
              (map (fun l => fst (focal_point l) + reflon)%R qt) = Ok (e, n) ->
  length e = length qt /\ length n = length qt /\
  okinv_data from_latlon reflat reflon qt
  = Ok (map (fun i =>
               [nth i e 0 / 1000; nth i n 0 / 1000;
                nth i (leaf_means qt) 0;
                nth i (losx qt) 0; nth i (losy qt) 0; nth i (losz qt) 0;
                INR (S i)]%R)
            (seq 0 (length qt))).
Proof.
  intros Hqt Hproj.
  assert (He : length e = length qt /\ length n = length qt).
  { pose proof (from_latlon_shape Hproj) as Hs.
    rewrite !length_map in Hs. exact Hs. }
  destruct He as [He Hn]. split; [exact He|]. split; [exact Hn|].
  unfold okinv_data. rewrite xym_eval, Hproj by exact Hqt. cbn [bind].
  unfold column_stack. cbn [hd forallb].
  unfold xkm, ykm, leaf_means, losx, losy, losz, leaf_thetas, leaf_phis.
  cbn [fst snd].
  rewrite dataptid_seq, !zip_with_map, !length_map, length_seq, He, Hn.
  rewrite !Nat.eqb_refl. cbn [andb].
  f_equal. apply map_ext_in. intros i Hi. apply in_seq in Hi.
  cbn [map].
  assert (Hx : forall l : list R, (i < length l)%nat ->
             nth i (map (fun v => v / 1000) l) 0 = nth i l 0 / 1000).
  { intros l Hl.
    apply nth_error_nth.
    apply (map_nth_error (fun v => v / 1000)%R).
    apply nth_error_nth'. exact Hl. }
  rewrite !Hx by lia.
  replace (nth i (map INR (seq 1 (length qt))) 0%R) with (INR (S i)).
  - reflexivity.
  - symmetry. apply nth_error_nth. apply (map_nth_error INR).
    rewrite nth_error_seq.
    destruct (Nat.ltb_spec i (length qt)); [reflexivity | lia].
Qed.

(** C5, amended.  For a tile set with at least one leaf whose centres
    [utm.from_latlon] accepts, the reformatter writes exactly one line per
    quadtree leaf; read back by splitting at single blanks, line i (from 0)
    has seven fields: x and y, which are the easting and the northing of the
    leaf centre (focal point plus reference corner, projected latitude
    first) divided by 1000, then the leaf mean, the three line-of-sight
    components of the leaf, and the decimal numeral of i+1.  The id column
    of the stacked array is 1, 2, ..., n. *)
Theorem okinv_rows (reflat reflon : R) (qt : quadtree) (e n : list R) :
  qt <> [] ->
  from_latlon (map (fun l => snd (focal_point l) + reflat)%R qt)
              (map (fun l => fst (focal_point l) + reflon)%R qt) = Ok (e, n) ->
  exists rows lines,
    okinv_data from_latlon reflat reflon qt = Ok rows /\
    write_okinv from_latlon pct_f reflat reflon qt = Ok lines /\
    length rows = length qt /\
    length lines = length qt /\
    map (fun row => nth 6 row 0%R) rows = map INR (seq 1 (length qt)) /\
    forall i l,
      nth_error qt i = Some l ->
      exists ei ni line,
        nth_error e i = Some ei /\
        nth_error n i = Some ni /\
        nth_error lines i = Some line /\
        fields line
        = [pct_f (ei / 1000); pct_f (ni / 1000); pct_f (leaf_mean l);
           pct_f (los_x (leaf_theta l) (leaf_phi l));
           pct_f (los_y (leaf_theta l) (leaf_phi l));
           pct_f (los_z (leaf_theta l));
           NilZero.string_of_int (Z.to_int (Z.of_nat (S i)))].
Proof.
  intros Hqt Hproj.
  destruct (@okinv_data_eval reflat reflon qt e n Hqt Hproj)
    as (He & Hn & Hrows).
  eexists. eexists.
  split; [exact Hrows|].
  split.
  { unfold write_okinv. rewrite Hrows. cbn [bind]. unfold savetxt.
    apply mapM_map. intros i _. cbn [format_row]. reflexivity. }
  split; [rewrite length_map, length_seq; reflexivity|].
  split; [rewrite length_map, length_seq; reflexivity|].
  split.
  { rewrite map_map. cbn [nth]. rewrite <- seq_shift, map_map. reflexivity. }
  intros i l Hl.
  assert (Hi : (i < length qt)%nat) by (apply nth_error_Some; congruence).
  exists (nth i e 0%R), (nth i n 0%R). eexists.
  split; [apply nth_error_nth'; lia|].
  split; [apply nth_error_nth'; lia|].
  split.
  { erewrite map_nth_error; [reflexivity|].
    rewrite nth_error_seq.
    destruct (Nat.ltb_spec i (length qt)); [reflexivity | lia]. }
  cbn [Nat.add].
  unfold leaf_means, losx, losy, losz, leaf_thetas, leaf_phis.
  rewrite !zip_with_map.
  rewrite (nth_error_nth _ _ 0%R (map_nth_error leaf_mean _ _ Hl)).
  rewrite (nth_error_nth _ _ 0%R
             (map_nth_error (fun a => los_x (leaf_theta a) (leaf_phi a)) _ _ Hl)).
  rewrite (nth_error_nth _ _ 0%R
             (map_nth_error (fun a => los_y (leaf_theta a) (leaf_phi a)) _ _ Hl)).
  rewrite map_map.
  rewrite (nth_error_nth _ _ 0%R
             (map_nth_error (fun a => los_z (leaf_theta a)) _ _ Hl)).
  cbn [append]. rewrite !fields_cons by apply pct_f_no_space.
  rewrite pct_d_id, fields_single by apply decimal_no_space.
  reflexivity.
Qed.

End OkinvFile.

(** C5, as stated, fails for a tile set without leaves: the claim has the
    reformatter write a file of no rows, but the cell stops with IndexError
    at the focal points and no file is written, whatever the projection
    and the float format. *)
Lemma okinv_no_leaf_no_file :
  ~ exists from_latlon pct_f reflat reflon lines,
      KiteWorkflow.write_okinv from_latlon pct_f reflat reflon [] = Ok lines.
Proof.
  intros (from_latlon & pct_f & reflat & reflon & lines & H).
  discriminate H.
Qed.

(** Two leaves through the reformatter, with a shift of both coordinates
    standing in for the projection and a float format that prints the
    integer part. *)
Lemma okinv_rows_witness :
  let from_latlon := fun lat lon : list R =>
    if Nat.eqb (length lat) (length lon)
    then Ok (map (fun x => x + 500000)%R lon, map (fun y => y * 1000)%R lat)
    else Raise ValueError in
  let pct_f := fun x : R => KiteWorkflow.pct_d x in
  let qt := [KiteWorkflow.mk_leaf (0, 0) 1 0 0;
             KiteWorkflow.mk_leaf (1000, 1) 2 0 0] in
  exists lines,
    KiteWorkflow.write_okinv from_latlon pct_f 2 3000 qt = Ok lines /\
    length lines = 2%nat /\
    map (fun line => firstn 2 (KiteWorkflow.fields line)) lines
    = [[pct_f 503; pct_f 2]; [pct_f 504; pct_f 3]] /\
    map (fun line => nth 6 (KiteWorkflow.fields line) EmptyString) lines
    = ["1"; "2"]%string.
Proof.
  intros from_latlon pct_f qt.
  assert (Hshape : forall lat lon e n,
             from_latlon lat lon = Ok (e, n) ->
             length e = length lat /\ length n = length lat).
  { intros lat lon e n. unfold from_latlon.
    destruct (Nat.eqb_spec (length lat) (length lon)) as [E|];
      [|discriminate].
    intros [= <- <-]. rewrite !length_map.
    split; [symmetry; exact E | reflexivity]. }
  assert (Hns : forall x, KiteWorkflow.has_space (pct_f x) = false).
  { intros x. apply decimal_no_space. }
  assert (Hqt : qt <> []) by discriminate.
  destruct (@okinv_rows from_latlon pct_f Hshape Hns 2 3000 qt _ _ Hqt eq_refl)
    as (rows & lines & _ & Hw & _ & Hlen & _ & Hf).
  exists lines. split; [exact Hw|]. split; [exact Hlen|].
  destruct lines as [|l0 [|l1 [|]]]; try discriminate.
  destruct (Hf 0%nat _ eq_refl) as (e0 & n0 & line0 & He0 & Hn0 & E0 & H0).
  destruct (Hf 1%nat _ eq_refl) as (e1 & n1 & line1 & He1 & Hn1 & E1 & H1).
  injection E0 as <-. injection E1 as <-.
  injection He0 as <-. injection Hn0 as <-.
  injection He1 as <-. injection Hn1 as <-.
  cbn [map]. rewrite H0, H1. cbn [firstn nth fst snd].
  split; [|reflexivity].
  repeat f_equal; lra.
Defined.

(** ** More on the penalties: NaN and broadcasting *)

Section PenaltyFacts.

Import ForwardModel.

(** NaN in a sum. *)
Lemma sum_nan (xs : list px) : In NaN xs -> sum xs = NaN.
Proof.
  unfold sum. induction xs as [|x xs IH]; [intros []|].
  intros [-> | Hin]; [reflexivity|].
  cbn [fold_right]. rewrite IH by exact Hin. destruct x; reflexivity.
Qed.

Lemma zip_with_sub_nan (xs ys : list px) :
  length xs = length ys -> In NaN xs \/ In NaN ys ->
  In NaN (zip_with px_sub xs ys).
Proof.
  revert ys. induction xs as [|x xs IH]; intros [|y ys]; simpl;
    try discriminate; [tauto|].
  intros [= Hl] [[-> | Hx] | [-> | Hy]].
  - left. reflexivity.
  - right. apply IH; [exact Hl | left; exact Hx].
  - left. destruct x; reflexivity.
  - right. apply IH; [exact Hl | right; exact Hy].
Qed.

Lemma square_nan (xs : list px) : In NaN xs -> In NaN (square xs).
Proof.
  intros H. unfold square.
  change NaN with ((fun x => px_mul x x) NaN). apply in_map. exact H.
Qed.

(** X4.  One NaN among the observations or the predictions of a point set
    makes the penalty, the zero-level shift and the corrected penalty NaN:
    the cells do not skip invalid points. *)
Theorem nan_poisons_penalty (d m : list px) :
  length d = length m -> In NaN d \/ In NaN m ->
  penalty d m = Ok NaN /\
  zero_shift d m = Ok NaN /\
  penalty_zero_level d m = Ok (NaN, NaN).
Proof.
  intros Hl Hin.
  pose proof (zip_with_sub_nan d m Hl Hin) as Hr.
  assert (Hsub : sub d m = Ok (zip_with px_sub d m)).
  { unfold sub, broadcast2. rewrite Hl, Nat.eqb_refl. reflexivity. }
  assert (Hz : zero_shift d m = Ok NaN).
  { unfold zero_shift. rewrite Hsub. cbn [bind]. unfold mean.
    rewrite (sum_nan _ Hr).
    destruct (zip_with px_sub d m); [destruct Hr | reflexivity]. }
  split.
  { unfold penalty. rewrite Hsub. cbn [bind].
    rewrite (sum_nan _ (square_nan _ Hr)). reflexivity. }
  split; [exact Hz|].
  unfold penalty_zero_level. rewrite Hz. cbn [bind].
  assert (Hd : d <> []).
  { intros ->. destruct m; [|discriminate]. destruct Hin as [[]|[]]. }
  assert (Hs : In NaN (sub_scalar d NaN)).
  { unfold sub_scalar. destruct d as [|x d]; [congruence|].
    left. destruct x; reflexivity. }
  assert (Hl' : length (sub_scalar d NaN) = length m).
  { unfold sub_scalar. rewrite length_map. exact Hl. }
  unfold sub, broadcast2. rewrite Hl', Nat.eqb_refl. cbn [bind].
  rewrite (sum_nan _ (square_nan _ (zip_with_sub_nan _ _ Hl' (or_introl Hs)))).
  reflexivity.
Qed.

Lemma nan_poisons_penalty_witness :
  penalty [Val 3; NaN] [Val 1; Val 1] = Ok NaN /\
  zero_shift [Val 3; NaN] [Val 1; Val 1] = Ok NaN /\
  penalty_zero_level [Val 3; NaN] [Val 1; Val 1] = Ok (NaN, NaN).
Proof.
  apply nan_poisons_penalty; [reflexivity|].
  left. right. left. reflexivity.
Defined.

(** X5.  The penalty cell fails, with numpy's broadcasting ValueError,
    exactly when the two vectors differ in length and neither has length
    one; otherwise it returns a value. *)
Theorem penalty_broadcast_error (d m : list px) :
  (penalty d m = Raise ValueError <->
   length d <> length m /\ length d <> 1%nat /\ length m <> 1%nat) /\
  ((exists p, penalty d m = Ok p) <->
   length d = length m \/ length d = 1%nat \/ length m = 1%nat).
Proof.
  unfold penalty, sub, broadcast2.
  destruct (Nat.eqb_spec (length d) (length m)) as [E|E].
  - cbn [bind]. split; split.
    + discriminate.
    + intros [H _]. contradiction.
    + intros _. left. exact E.
    + intros _. eexists. reflexivity.
  - destruct d as [|x [|x' d]]; destruct m as [|y [|y' m]];
      cbn [bind length] in *;
      (split; split;
       [ try discriminate; try (intros _; repeat split; lia)
       | try reflexivity; try (intros (_ & H1 & H2); lia)
       | try (intros [p Hp]; discriminate Hp); intros _; lia
       | try (intros _; eexists; reflexivity); intros [H|[H|H]]; lia ]).
Qed.

End PenaltyFacts.

(** ** Cropping and the kite frame *)

Section SceneFacts.

Import SceneSetup.

Lemma nth_error_flat_map_rows {A B : Type} (f : A -> list B) (l : list A)
  (w i j : nat) (x : A) :
  (forall a, In a l -> length (f a) = w) ->
  nth_error l i = Some x -> (j < w)%nat ->
  nth_error (flat_map f l) (i * w + j) = nth_error (f x) j.
Proof.
  revert i. induction l as [|a l IH]; intros [|i] Hlen Hi Hj;
    try discriminate.
  - injection Hi as ->. cbn [flat_map Nat.mul Nat.add].
    apply nth_error_app1. rewrite Hlen by (left; reflexivity). exact Hj.
  - cbn [flat_map]. cbn [nth_error] in Hi.
    rewrite nth_error_app2; rewrite Hlen by (left; reflexivity); [|lia].
    replace (S i * w + j - w)%nat with (i * w + j)%nat by lia.
    apply IH; [|exact Hi|exact Hj].
    intros b Hb. apply Hlen. right. exact Hb.
Qed.

Lemma length_flat_map_rows {A B : Type} (f : A -> list B) (l : list A)
  (w : nat) :
  (forall a, In a l -> length (f a) = w) ->
  length (flat_map f l) = (length l * w)%nat.
Proof.
  induction l as [|a l IH]; intros Hlen; [reflexivity|].
  cbn [flat_map length]. rewrite length_app, Hlen by (left; reflexivity).
  rewrite IH by (intros b Hb; apply Hlen; right; exact Hb). lia.
Qed.

Lemma row_length {A : Type} (a : ndarray A) (i : nat) :
  wf_ndarray a -> (i < fst (shape a))%nat ->
  length (row a i) = snd (shape a).
Proof.
  unfold wf_ndarray, row. intros Hwf Hi.
  rewrite length_firstn, length_skipn. nia.
Qed.

Lemma row_nth {A : Type} (a : ndarray A) (i j : nat) :
  (j < snd (shape a))%nat -> nth_error (row a i) j = item a i j.
Proof.
  unfold row, item. intros Hj.
  rewrite nth_error_firstn.
  destruct (Nat.ltb_spec j (snd (shape a))); [|lia].
  apply nth_error_skipn.
Qed.

(** Cells of a slice whose normalised bounds are [i0, i1) and [j0, j1). *)
Lemma getslice_item {A : Type} (a : ndarray A) (r0 r1 c0 c1 : Z) (i j : nat) :
  wf_ndarray a ->
  let i0 := slice_bound (fst (shape a)) r0 in
  let j0 := slice_bound (snd (shape a)) c0 in
  (i < fst (shape (getslice a r0 r1 c0 c1)))%nat ->
  (j < snd (shape (getslice a r0 r1 c0 c1)))%nat ->
  item (getslice a r0 r1 c0 c1) i j = item a (i0 + i) (j0 + j).
Proof.
  intros Hwf i0 j0. unfold getslice. cbn [shape fst snd cells].
  fold i0 j0.
  set (i1 := slice_bound (fst (shape a)) r1).
  set (j1 := slice_bound (snd (shape a)) c1).
  intros Hi Hj.
  assert (Hi1 : (i1 <= fst (shape a))%nat).
  { unfold i1, slice_bound. destruct (Z.ltb_spec r1 0); lia. }
  assert (Hj1 : (j1 <= snd (shape a))%nat).
  { unfold j1, slice_bound. destruct (Z.ltb_spec c1 0); lia. }
  unfold item at 1. cbn [shape snd cells].
  rewrite (@nth_error_flat_map_rows _ _ _ _ (j1 - j0)%nat i j (i0 + i)%nat).
  - rewrite nth_error_firstn.
    destruct (Nat.ltb_spec j (j1 - j0)); [|lia].
    rewrite nth_error_skipn. apply row_nth. lia.
  - intros r Hr. apply in_seq in Hr.
    rewrite length_firstn, length_skipn, row_length by (assumption || lia).
    lia.
  - rewrite nth_error_seq.
    destruct (Nat.ltb_spec i (i1 - i0)); [reflexivity | lia].
  - exact Hj.
Qed.

Lemma getslice_wf {A : Type} (a : ndarray A) (r0 r1 c0 c1 : Z) :
  wf_ndarray a -> wf_ndarray (getslice a r0 r1 c0 c1).
Proof.
  intros Hwf. unfold wf_ndarray, getslice. cbn [shape fst snd cells].
  set (i0 := slice_bound (fst (shape a)) r0).
  set (i1 := slice_bound (fst (shape a)) r1).
  set (j0 := slice_bound (snd (shape a)) c0).
  set (j1 := slice_bound (snd (shape a)) c1).
  assert (Hi1 : (i1 <= fst (shape a))%nat).
  { unfold i1, slice_bound. destruct (Z.ltb_spec r1 0); lia. }
  assert (Hj1 : (j1 <= snd (shape a))%nat).
  { unfold j1, slice_bound. destruct (Z.ltb_spec c1 0); lia. }
  rewrite (@length_flat_map_rows _ _ _ _ (j1 - j0)%nat).
  - rewrite length_seq. reflexivity.
  - intros r Hr. apply in_seq in Hr.
    rewrite length_firstn, length_skipn, row_length by (assumption || lia).
    lia.
Qed.

Lemma flip0_wf {A : Type} (a : ndarray A) : wf_ndarray a -> wf_ndarray (flip0 a).
Proof.
  intros Hwf. unfold wf_ndarray, flip0. cbn [shape cells].
  rewrite (@length_flat_map_rows _ _ _ _ (snd (shape a))).
  - rewrite length_rev, length_seq. reflexivity.
  - intros r Hr. apply in_rev in Hr. apply in_seq in Hr.
    apply row_length; [exact Hwf | lia].
Qed.

Lemma flip0_item {A : Type} (a : ndarray A) (i j : nat) :
  wf_ndarray a -> (i < fst (shape a))%nat -> (j < snd (shape a))%nat ->
  item (flip0 a) i j = item a (fst (shape a) - 1 - i) j.
Proof.
  intros Hwf Hi Hj. unfold item at 1, flip0. cbn [shape cells].
  rewrite (@nth_error_flat_map_rows _ _ _ _ (snd (shape a)) i j
             (fst (shape a) - 1 - i)%nat).
  - apply row_nth. exact Hj.
  - intros r Hr. apply in_rev in Hr. apply in_seq in Hr.
    apply row_length; [exact Hwf | lia].
  - rewrite nth_error_rev, length_seq.
    destruct (Nat.ltb_spec i (fst (shape a))); [|lia].
    rewrite nth_error_seq.
    destruct (Nat.ltb_spec (fst (shape a) - S i) (fst (shape a))); [|lia].
    f_equal. lia.
  - exact Hj.
Qed.

Lemma put_where_length (xs : list px) (ms : list bool) (v : px) :
  length (put_where xs ms v) = length xs.
Proof.
  revert ms. induction xs as [|x xs IH]; intros [|m ms]; simpl;
    try reflexivity.
  rewrite IH. reflexivity.
Qed.

(** The mask/convert lines, pixel by pixel. *)
Lemma mask_convert_item (w : bool) (wavel cor_thresh : R)
  (ifg : ndarray px) (msk : ndarray Z) (cor : ndarray px) :
  wf_ndarray ifg -> shape msk = shape ifg -> shape cor = shape ifg ->
  exists out,
    KiteWorkflow.mask_convert w wavel cor_thresh ifg msk cor = Ok out /\
    shape out = shape ifg /\ wf_ndarray out /\
    forall i j p m c,
      item ifg i j = Some p -> item msk i j = Some m ->
      item cor i j = Some c ->
      item out i j = Some (convert_cell w wavel cor_thresh p m c).
Proof.
  intros Wi Sm Sc. unfold KiteWorkflow.mask_convert.
  destruct w.
  - rewrite (setitem_mask_ok ifg (lt_int msk 1) NaN) by exact Sm.
    cbn [bind]. rewrite setitem_mask_ok by exact Sc.
    eexists. split; [reflexivity|].
    cbn [shape cells imul amap lt_int lt_float].
    split; [reflexivity|]. split.
    { unfold wf_ndarray. cbn [shape cells].
      rewrite put_where_length, length_map, put_where_length. exact Wi. }
    intros i j p m c Hp Hm Hc. unfold item in *. cbn [shape cells].
    rewrite Sm in Hm. rewrite Sc in Hc.
    rewrite (nth_error_put_where _ _ _ _
               (map_nth_error _ _ _
                  (nth_error_put_where _ _ _ _ Hp
                     (map_nth_error (fun z => (z <? 1)%Z) _ _ Hm)))
               (map_nth_error (fun c => px_ltb c (Val cor_thresh)) _ _ Hc)).
    unfold convert_cell. cbn [andb]. reflexivity.
  - cbn [bind]. rewrite setitem_mask_ok by exact Sc.
    eexists. split; [reflexivity|].
    cbn [shape cells imul amap lt_int lt_float].
    split; [reflexivity|]. split.
    { unfold wf_ndarray. cbn [shape cells].
      rewrite put_where_length, length_map. exact Wi. }
    intros i j p m c Hp Hm Hc. unfold item in *. cbn [shape cells].
    rewrite Sc in Hc.
    rewrite (nth_error_put_where _ _ _ _
               (map_nth_error (fun x => px_mul x (Val (wavel / 4 / PI))) _ _ Hp)
               (map_nth_error (fun c => px_ltb c (Val cor_thresh)) _ _ Hc)).
    unfold convert_cell. cbn [andb]. reflexivity.
Qed.

Lemma getslice_shape_eq {A B : Type} (a : ndarray A) (b : ndarray B)
  (r0 r1 c0 c1 : Z) :
  shape b = shape a ->
  shape (getslice b r0 r1 c0 c1) = shape (getslice a r0 r1 c0 c1).
Proof. intros H. unfold getslice. cbn [shape]. rewrite H. reflexivity. Qed.

(** X6.  Cropping commutes with the mask/convert lines: masking and
    converting the whole rasters and cropping the result gives, pixel by
    pixel, what masking and converting the three cropped rasters gives.
    This holds for any crop bounds. *)
Theorem crop_commutes_with_mask (w : bool) (wavel cor_thresh : R)
  (nrows ymin ymax xmin xmax : Z)
  (ifg : ndarray px) (msk : ndarray Z) (cor : ndarray px) :
  wf_ndarray ifg -> wf_ndarray msk -> wf_ndarray cor ->
  shape msk = shape ifg -> shape cor = shape ifg ->
  exists d d',
    KiteWorkflow.mask_convert w wavel cor_thresh ifg msk cor = Ok d /\
    KiteWorkflow.mask_convert w wavel cor_thresh
      (crop nrows ymin ymax xmin xmax ifg)
      (crop nrows ymin ymax xmin xmax msk)
      (crop nrows ymin ymax xmin xmax cor) = Ok d' /\
    shape (crop nrows ymin ymax xmin xmax d) = shape d' /\
    forall i j,
      (i < fst (shape d'))%nat -> (j < snd (shape d'))%nat ->
      exists q, item d' i j = Some q /\
                item (crop nrows ymin ymax xmin xmax d) i j = Some q.
Proof.
  intros Wi Wm Wc Sm Sc. unfold crop.
  set (r0 := (nrows - resolve_ymax nrows ymax)%Z).
  set (r1 := (nrows - ymin)%Z).
  destruct (@mask_convert_item w wavel cor_thresh ifg msk cor Wi Sm Sc)
    as (d & Hd & Sd & Wd & Hcell).
  pose proof (@getslice_wf _ ifg r0 r1 xmin xmax Wi) as Wi'.
  pose proof (@getslice_wf _ msk r0 r1 xmin xmax Wm) as Wm'.
  pose proof (@getslice_wf _ cor r0 r1 xmin xmax Wc) as Wc'.
  pose proof (@getslice_shape_eq _ _ ifg msk r0 r1 xmin xmax Sm) as Sm'.
  pose proof (@getslice_shape_eq _ _ ifg cor r0 r1 xmin xmax Sc) as Sc'.
  pose proof (@getslice_shape_eq _ _ ifg d r0 r1 xmin xmax Sd) as Sd'.
  destruct (@mask_convert_item w wavel cor_thresh _ _ _ Wi' Sm' Sc')
    as (d' & Hd' & Sd'' & Wd' & Hcell').
  exists d, d'. split; [exact Hd|]. split; [exact Hd'|].
  split; [congruence|].
  intros i j Hi Hj. rewrite Sd'' in Hi, Hj.
  destruct (@item_defined _ (getslice ifg r0 r1 xmin xmax) i j Wi' Hi Hj) as [p Hp].
  destruct (@item_defined _ (getslice msk r0 r1 xmin xmax) i j Wm')
    as [m Hm]; try (rewrite Sm'; assumption).
  destruct (@item_defined _ (getslice cor r0 r1 xmin xmax) i j Wc')
    as [c Hc]; try (rewrite Sc'; assumption).
  exists (convert_cell w wavel cor_thresh p m c).
  split; [apply Hcell'; assumption|].
  rewrite getslice_item by (assumption || (rewrite Sd'; assumption)).
  rewrite getslice_item in Hp by assumption.
  rewrite getslice_item in Hm by (assumption || (rewrite Sm'; assumption)).
  rewrite getslice_item in Hc by (assumption || (rewrite Sc'; assumption)).
  rewrite Sd. rewrite Sm in Hm. rewrite Sc in Hc.
  apply Hcell; assumption.
Qed.

Lemma crop_commutes_with_mask_witness :
  let ifg := mk_ndarray (2, 2)%nat [Val 1; Val 2; Val 3; Val 4] in
  let msk := mk_ndarray (2, 2)%nat [1%Z; 1%Z; 0%Z; 1%Z] in
  let cor := mk_ndarray (2, 2)%nat [Val 1; Val 0; Val 1; Val 1] in
  exists d d',
    KiteWorkflow.mask_convert true 1 (1 / 2) ifg msk cor = Ok d /\
    KiteWorkflow.mask_convert true 1 (1 / 2)
      (crop 2 0 1 0 2 ifg) (crop 2 0 1 0 2 msk) (crop 2 0 1 0 2 cor) = Ok d' /\
    shape (crop 2 0 1 0 2 d) = shape d'.
Proof.
  intros ifg msk cor.
  destruct (@crop_commutes_with_mask true 1 (1 / 2) 2 0 1 0 2 ifg msk cor)
    as (d & d' & H1 & H2 & H3 & _); try reflexivity.
  exists d, d'. repeat split; assumption.
Defined.

(** X7.  With crop bounds inside the image (0 <= ymin <= ymax <= rows,
    0 <= xmin <= xmax <= columns, counted from the upper left as the
    notebook asks), the crop of the flipped raster has ymax - ymin rows and
    xmax - xmin columns, and its pixel (i, j), counted from the lower left,
    is the image pixel in row ymax - 1 - i and column xmin + j. *)
Theorem crop_selects_window {A : Type} (img : ndarray A)
  (ymin ymax xmin xmax : Z) :
  wf_ndarray img ->
  (0 <= ymin <= ymax)%Z -> (ymax <= Z.of_nat (fst (shape img)))%Z ->
  (0 <= xmin <= xmax)%Z -> (xmax <= Z.of_nat (snd (shape img)))%Z ->
  let sc := crop (Z.of_nat (fst (shape img))) ymin ymax xmin xmax (flip0 img) in
  shape sc = (Z.to_nat (ymax - ymin), Z.to_nat (xmax - xmin)) /\
  forall i j,
    (i < Z.to_nat (ymax - ymin))%nat -> (j < Z.to_nat (xmax - xmin))%nat ->
    exists x,
      item sc i j = Some x /\
      item img (Z.to_nat ymax - 1 - i) (Z.to_nat xmin + j) = Some x.
Proof.
  intros Hwf Hy Hy' Hx Hx' sc.
  set (r := fst (shape img)) in *. set (c := snd (shape img)) in *.
  assert (Hres : resolve_ymax (Z.of_nat r) ymax = ymax).
  { unfold resolve_ymax. destruct (Z.eqb_spec ymax (-1)); [lia | reflexivity]. }
  assert (B0 : slice_bound r (Z.of_nat r - ymax) = (r - Z.to_nat ymax)%nat).
  { unfold slice_bound. destruct (Z.ltb_spec (Z.of_nat r - ymax) 0); lia. }
  assert (B1 : slice_bound r (Z.of_nat r - ymin) = (r - Z.to_nat ymin)%nat).
  { unfold slice_bound. destruct (Z.ltb_spec (Z.of_nat r - ymin) 0); lia. }
  assert (C0 : slice_bound c xmin = Z.to_nat xmin).
  { unfold slice_bound. destruct (Z.ltb_spec xmin 0); lia. }
  assert (C1 : slice_bound c xmax = Z.to_nat xmax).
  { unfold slice_bound. destruct (Z.ltb_spec xmax 0); lia. }
  set (G := getslice (flip0 img) (Z.of_nat r - ymax) (Z.of_nat r - ymin)
              xmin xmax).
  assert (Hsc : sc = G).
  { unfold sc, crop. rewrite Hres. reflexivity. }
  rewrite Hsc. clear Hsc sc.
  assert (Hshape : shape G
                   = (Z.to_nat (ymax - ymin), Z.to_nat (xmax - xmin))).
  { unfold G, getslice. cbn [shape flip0].
    fold r c. rewrite B0, B1, C0, C1. f_equal; lia. }
  split; [exact Hshape|].
  intros i j Hi Hj.
  assert (Hit : item G i j
                = item img (Z.to_nat ymax - 1 - i) (Z.to_nat xmin + j)).
  { unfold G. rewrite getslice_item.
    - cbn [shape flip0]. fold r c. rewrite B0, C0.
      rewrite flip0_item by (assumption || (fold r c; lia)).
      fold r. f_equal. lia.
    - apply flip0_wf. exact Hwf.
    - fold G. rewrite Hshape. exact Hi.
    - fold G. rewrite Hshape. exact Hj. }
  destruct (@item_defined _ img (Z.to_nat ymax - 1 - i) (Z.to_nat xmin + j) Hwf)
    as [x Hx0]; try (fold r c; lia).
  exists x. split; [rewrite Hit; exact Hx0 | exact Hx0].
Qed.

Lemma crop_selects_window_witness :
  let img := mk_ndarray (3, 2)%nat [10; 11; 20; 21; 30; 31]%nat in
  let sc := crop 3 1 3 0 2 (flip0 img) in
  shape sc = (2, 2)%nat /\ item sc 0 1 = Some 31%nat /\
  item sc 1 0 = Some 20%nat.
Proof.
  intros img sc.
  destruct (@crop_selects_window nat img 1 3 0 2) as [Hs Hp];
    try reflexivity; try (cbn; lia).
  split; [exact Hs|]. split.
  - destruct (Hp 0%nat 1%nat) as (x & Hsx & Hx); [cbn; lia | cbn; lia |].
    cbn in Hx. injection Hx as <-. exact Hsx.
  - destruct (Hp 1%nat 0%nat) as (x & Hsx & Hx); [cbn; lia | cbn; lia |].
    cbn in Hx. injection Hx as <-. exact Hsx.
Defined.

Lemma slice_bound_default_rows (r : nat) :
  slice_bound r (Z.of_nat r - resolve_ymax (Z.of_nat r) (-1)) = 0%nat /\
  slice_bound r (Z.of_nat r - 0) = r.
Proof.
  unfold resolve_ymax, slice_bound. cbn [Z.eqb Pos.eqb].
  split.
  - destruct (Z.ltb_spec (Z.of_nat r - Z.of_nat r) 0); lia.
  - destruct (Z.ltb_spec (Z.of_nat r - 0) 0); lia.
Qed.

Lemma slice_bound_default_cols (c : nat) :
  slice_bound c 0 = 0%nat /\ slice_bound c (-1) = (c - 1)%nat.
Proof. unfold slice_bound. cbn [Z.ltb Z.compare]. split; lia. Qed.

Lemma crop_default_shape {A : Type} (a : ndarray A) (r c : nat) :
  shape a = (r, c) ->
  shape (crop (Z.of_nat r) 0 (-1) 0 (-1) a) = (r, c - 1)%nat.
Proof.
  intros H. unfold crop, getslice. cbn [shape]. rewrite H. cbn [fst snd].
  destruct (slice_bound_default_rows r) as [-> ->].
  destruct (slice_bound_default_cols c) as [-> ->].
  f_equal; lia.
Qed.

(** X8.  With the bounds the notebook gives for the full scene (minima 0,
    maxima -1) every row is kept, since ymax = -1 is replaced by the number
    of rows, but xmax = -1 goes into the slice as it is: displacement, theta
    and phi all come out one column short, without the last column of the
    rasters. *)
Theorem default_bounds_drop_last_column (w : bool) (wavel cor_thresh : R)
  (gt : geotransform) (ifg cor : ndarray px) (inc azi : ndarray R)
  (msk : ndarray Z) :
  wf_ndarray ifg ->
  shape msk = shape ifg -> shape cor = shape ifg ->
  shape inc = shape ifg -> shape azi = shape ifg ->
  let r := fst (shape ifg) in
  let c := snd (shape ifg) in
  exists d sc,
    KiteWorkflow.mask_convert w wavel cor_thresh
      (flip0 ifg) (flip0 msk) (flip0 cor) = Ok d /\
    load_scene w wavel cor_thresh gt (Z.of_nat r) 0 (-1) 0 (-1)
      ifg cor inc azi msk = Ok sc /\
    shape d = (r, c) /\
    shape (displacement sc) = (r, c - 1)%nat /\
    shape (theta sc) = (r, c - 1)%nat /\
    shape (phi sc) = (r, c - 1)%nat /\
    forall i j, (i < r)%nat -> (j < c - 1)%nat ->
      item (displacement sc) i j = item d i j.
Proof.
  intros Wi Sm Sc Si Sa r c.
  assert (Hs : shape ifg = (r, c)) by (unfold r, c; apply surjective_pairing).
  clearbody r c.
  destruct (@mask_convert_item w wavel cor_thresh
              (flip0 ifg) (flip0 msk) (flip0 cor) (flip0_wf Wi) Sm Sc)
    as (d & Hd & Sd & Wd & _).
  cbn [shape flip0] in Sd. rewrite Hs in Sd.
  exists d. eexists.
  split; [exact Hd|].
  split; [unfold load_scene; rewrite Hd; reflexivity|].
  cbn [displacement theta phi amap shape].
  split; [exact Sd|].
  split; [apply crop_default_shape; exact Sd|].
  split; [apply crop_default_shape; cbn [shape flip0]; congruence|].
  split; [apply crop_default_shape; cbn [shape flip0]; congruence|].
  intros i j Hi Hj. unfold crop.
  rewrite getslice_item.
  - rewrite Sd. cbn [fst snd].
    destruct (slice_bound_default_rows r) as [-> _].
    destruct (slice_bound_default_cols c) as [-> _].
    reflexivity.
  - exact Wd.
  - fold (crop (Z.of_nat r) 0 (-1) 0 (-1) d).
    rewrite (crop_default_shape d Sd). cbn [fst]. exact Hi.
  - fold (crop (Z.of_nat r) 0 (-1) 0 (-1) d).
    rewrite (crop_default_shape d Sd). cbn [snd]. exact Hj.
Qed.

Lemma default_bounds_drop_last_column_witness :
  let ifg := mk_ndarray (1, 2)%nat [Val 2; Val 4] in
  let cor := mk_ndarray (1, 2)%nat [Val 1; Val 1] in
  let ang := mk_ndarray (1, 2)%nat [30; 30] in
  let msk := mk_ndarray (1, 2)%nat [1%Z; 1%Z] in
  exists sc,
    load_scene true 1 (1 / 2) (mk_gt 0 1 0 0 0 (-1)) 1 0 (-1) 0 (-1)
      ifg cor ang ang msk = Ok sc /\
    shape (displacement sc) = (1, 1)%nat.
Proof.
  intros ifg cor ang msk.
  destruct (@default_bounds_drop_last_column true 1 (1 / 2)
              (mk_gt 0 1 0 0 0 (-1)) ifg cor ang ang msk)
    as (d & sc & _ & Hsc & _ & Hs & _); try reflexivity.
  exists sc. split; [exact Hsc | exact Hs].
Defined.

(** X9.  For a north-up raster (gt[5] < 0) and crop bounds inside the
    image, the kite frame describes exactly the cropped window: starting at
    its lower-left corner, the scene's rows times dN reach the northern
    edge of image row ymin, and its columns times dE reach the eastern edge
    of the window. *)
Theorem frame_spans_window {A : Type} (a : ndarray A) (gt : geotransform)
  (ymin ymax xmin xmax : Z) :
  gt5 gt < 0 ->
  (0 <= ymin <= ymax)%Z -> (ymax <= Z.of_nat (fst (shape a)))%Z ->
  (0 <= xmin <= xmax)%Z -> (xmax <= Z.of_nat (snd (shape a)))%Z ->
  let nrows := Z.of_nat (fst (shape a)) in
  let f := scene_frame gt nrows ymax xmin in
  let sc := crop nrows ymin ymax xmin xmax a in
  llLat f + INR (fst (shape sc)) * dN f = gt3 gt + IZR ymin * gt5 gt /\
  llLon f + INR (snd (shape sc)) * dE f = gt0 gt + IZR xmax * gt1 gt.
Proof.
  intros Hn Hy Hy' Hx Hx' nrows f sc.
  assert (Hres : resolve_ymax nrows ymax = ymax).
  { unfold resolve_ymax. destruct (Z.eqb_spec ymax (-1)); [lia | reflexivity]. }
  assert (Hshape : shape sc
                   = (Z.to_nat (ymax - ymin), Z.to_nat (xmax - xmin))).
  { unfold sc, crop, getslice. rewrite Hres. cbn [shape].
    unfold slice_bound, nrows.
    destruct (Z.ltb_spec (Z.of_nat (fst (shape a)) - ymax) 0);
      destruct (Z.ltb_spec (Z.of_nat (fst (shape a)) - ymin) 0);
      destruct (Z.ltb_spec xmin 0); destruct (Z.ltb_spec xmax 0);
      f_equal; lia. }
  rewrite Hshape. cbn [fst snd].
  rewrite !INR_IZR_INZ, !Z2Nat.id by lia.
  unfold f, scene_frame. rewrite Hres. cbn [llLat llLon dN dE].
  rewrite (Rabs_left _ Hn), !minus_IZR. split; ring.
Qed.

Lemma frame_spans_window_witness :
  let a := mk_ndarray (3, 2)%nat [10; 11; 20; 21; 30; 31]%nat in
  let gt := mk_gt 40 (1 / 2) 0 39 0 (- (1 / 2)) in
  let f := scene_frame gt 3 3 0 in
  let sc := crop 3 1 3 0 2 a in
  llLat f + INR (fst (shape sc)) * dN f = 39 + 1 * - (1 / 2) /\
  llLon f + INR (snd (shape sc)) * dE f = 40 + 2 * (1 / 2).
Proof.
  intros a gt f sc.
  apply (@frame_spans_window nat a gt 1 3 0 2); cbn; lra || lia.
Defined.

(** X17.  The mask/convert lines never turn an invalid pixel into a valid
    one: a pixel that is NaN in the interferogram read from file is NaN in
    the converted grid, whatever its coherence and water-mask value. *)
Theorem mask_convert_keeps_nan (w : bool) (wavel cor_thresh : R)
  (ifg : ndarray px) (msk : ndarray Z) (cor : ndarray px) :
  wf_ndarray ifg -> wf_ndarray msk -> wf_ndarray cor ->
  shape msk = shape ifg -> shape cor = shape ifg ->
  exists out,
    KiteWorkflow.mask_convert w wavel cor_thresh ifg msk cor = Ok out /\
    shape out = shape ifg /\
    forall i j, item ifg i j = Some NaN -> item out i j = Some NaN.
Proof.
  intros Wi Wm Wc Sm Sc.
  destruct (@mask_convert_item w wavel cor_thresh ifg msk cor Wi Sm Sc)
    as (out & Hout & Sout & _ & Hcell).
  exists out. split; [exact Hout|]. split; [exact Sout|].
  intros i j Hp.
  assert (Hk : (i * snd (shape ifg) + j < length (cells ifg))%nat).
  { apply nth_error_Some. unfold item in Hp. congruence. }
  destruct (item msk i j) as [m|] eqn:Hm.
  - destruct (item cor i j) as [c|] eqn:Hc.
    + rewrite (Hcell i j NaN m c Hp Hm Hc). unfold convert_cell.
      destruct (px_ltb c (Val cor_thresh)); [reflexivity|].
      destruct (w && (m <? 1)%Z); reflexivity.
    + exfalso. unfold item in Hc. apply nth_error_None in Hc.
      unfold wf_ndarray in Wi, Wc. rewrite Sc in Hc, Wc. lia.
  - exfalso. unfold item in Hm. apply nth_error_None in Hm.
    unfold wf_ndarray in Wi, Wm. rewrite Sm in Hm, Wm. lia.
Qed.

Lemma mask_convert_keeps_nan_witness :
  let ifg := mk_ndarray (1, 2)%nat [NaN; Val 4] in
  let msk := mk_ndarray (1, 2)%nat [1%Z; 1%Z] in
  let cor := mk_ndarray (1, 2)%nat [Val 1; Val 1] in
  exists out,
    KiteWorkflow.mask_convert true 1 (1 / 2) ifg msk cor = Ok out /\
    item out 0 0 = Some NaN.
Proof.
  intros ifg msk cor.
  destruct (@mask_convert_keeps_nan true 1 (1 / 2) ifg msk cor)
    as (out & Hout & _ & Hnan); try reflexivity.
  exists out. split; [exact Hout|]. apply Hnan. reflexivity.
Defined.

End SceneFacts.

(** ** loadData *)

Section LoadData.

Import SceneSetup RasterLoad.

(** X10.  For a north-up raster (gt[1] > 0, gt[5] < 0) of positive size
    the extent of [loadData] is ordered left < right and bottom < top, and
    it is the rectangle of the kite frame of the uncropped raster: it starts
    at the frame's lower-left corner and spans xsize times dE by ysize
    times dN. *)
Theorem extent_is_frame_rectangle (trans : geotransform) (xsize ysize : Z) :
  0 < gt1 trans -> gt5 trans < 0 -> (0 < xsize)%Z -> (0 < ysize)%Z ->
  let f := scene_frame trans ysize (-1) 0 in
  exists left right bottom top,
    extent trans xsize ysize = (left, right, bottom, top) /\
    left < right /\ bottom < top /\
    left = llLon f /\ bottom = llLat f /\
    right = llLon f + IZR xsize * dE f /\
    top = llLat f + IZR ysize * dN f.
Proof.
  intros Hx Hy Hxs Hys f.
  unfold extent. do 4 eexists. split; [reflexivity|].
  unfold f, scene_frame, resolve_ymax. cbn [Z.eqb Pos.eqb llLat llLon dN dE].
  rewrite (Rabs_left _ Hy).
  apply IZR_lt in Hxs. apply IZR_lt in Hys.
  repeat split; try ring; nra.
Qed.

Lemma extent_is_frame_rectangle_witness :
  exists left right bottom top,
    extent (mk_gt 40 (1 / 2) 0 39 0 (- (1 / 2))) 4 2
    = (left, right, bottom, top) /\
    left < right /\ bottom < top.
Proof.
  destruct (@extent_is_frame_rectangle (mk_gt 40 (1 / 2) 0 39 0 (- (1 / 2))) 4 2)
    as (l & r & b & t & He & Hlr & Hbt & _); try (cbn; lra); try lia.
  exists l, r, b, t. repeat split; assumption.
Defined.

End LoadData.

(** ** More on multiLook *)

Section MultiLookFacts.

Import RasterManipulation.
Open Scope Z_scope.

Variable gdal : dataset -> TranslateOptions -> option dataset.


(** X12.  With one look in each direction [multiLook] copies the raster:
    same size, same pixels. *)
Theorem multiLook_one_look (ds : dataset) :
  exists out,
    multiLook gdal ds 1 1 = Ok out /\
    RasterXSize out = RasterXSize ds /\
    RasterYSize out = RasterYSize ds /\
    forall i j, 0 <= i < RasterXSize ds -> 0 <= j < RasterYSize ds ->
                band out i j = band ds i j.
Proof.
  pose proof (raster_size ds) as [PX PY].
  destruct (@multiLook_eval gdal ds 1 1) as (out & Hout & HX & HY & Hband);
    try lia.
  rewrite Z.div_1_r in HX, HY.
  exists out. split; [exact Hout|]. split; [exact HX|]. split; [exact HY|].
  intros i j Hi Hj. rewrite Hband.
  unfold box_average. rewrite !Z.mul_1_r.
  change (Z.to_nat 1) with 1%nat. cbn [sum_from]. field.
Qed.

Lemma sum_from_bounds (f : Z -> R) (lo : Z) (n : nat) (a b : R) :
  (forall k, lo <= k < lo + Z.of_nat n -> (a <= f k <= b)%R) ->
  (INR n * a <= sum_from f lo n <= INR n * b)%R.
Proof.
  revert lo. induction n as [|n IH]; intros lo H.
  - cbn [sum_from INR]. lra.
  - cbn [sum_from]. rewrite S_INR.
    pose proof (H lo ltac:(lia)) as H0.
    pose proof (IH (lo + 1) (fun k Hk => H k ltac:(lia))) as H1.
    lra.
Qed.

Lemma box_average_bounds (ds : dataset) (x0 y0 bw bh : Z) (a b : R) :
  1 <= bw -> 1 <= bh ->
  (forall x y, x0 <= x < x0 + bw -> y0 <= y < y0 + bh ->
               (a <= band ds x y <= b)%R) ->
  (a <= box_average ds x0 y0 bw bh <= b)%R.
Proof.
  intros Hw Hh H. unfold box_average.
  assert (Hrow : forall y, y0 <= y < y0 + bh ->
            (IZR bw * a
             <= sum_from (fun x => band ds x y) x0 (Z.to_nat bw)
             <= IZR bw * b)%R).
  { intros y Hy.
    replace (IZR bw) with (INR (Z.to_nat bw))
      by (rewrite INR_IZR_INZ, Z2Nat.id by lia; reflexivity).
    apply sum_from_bounds. intros x Hx. apply H; lia. }
  assert (Hall :
            (IZR bh * (IZR bw * a)
             <= sum_from (fun y => sum_from (fun x => band ds x y) x0
                                     (Z.to_nat bw)) y0 (Z.to_nat bh)
             <= IZR bh * (IZR bw * b))%R).
  { replace (IZR bh) with (INR (Z.to_nat bh))
      by (rewrite INR_IZR_INZ, Z2Nat.id by lia; reflexivity).
    apply sum_from_bounds. intros y Hy. apply Hrow. lia. }
  assert (Hbw : (1 <= IZR bw)%R) by (apply IZR_le; exact Hw).
  assert (Hbh : (1 <= IZR bh)%R) by (apply IZR_le; exact Hh).
  assert (Hp : (0 < IZR bw * IZR bh)%R) by nra.
  set (S := sum_from _ _ _) in *.
  assert (HS : (S / (IZR bw * IZR bh) * (IZR bw * IZR bh) = S)%R)
    by (field; lra).
  split; apply (Rmult_le_reg_r (IZR bw * IZR bh)); try exact Hp;
    rewrite HS; lra.
Qed.

(** X13.  Averaging keeps the data range: for look factors within the
    raster size, when every pixel of the source window lies between two
    bounds (coherence between 0 and 1, say), so does every pixel of the
    multilooked raster. *)
Theorem multiLook_keeps_range (ds out : dataset) (xlooks ylooks : Z)
  (a b : R) :
  1 <= xlooks <= RasterXSize ds -> 1 <= ylooks <= RasterYSize ds ->
  multiLook gdal ds xlooks ylooks = Ok out ->
  (forall x y,
     0 <= x < RasterXSize ds / xlooks * xlooks ->
     0 <= y < RasterYSize ds / ylooks * ylooks ->
     (a <= band ds x y <= b)%R) ->
  forall i j, 0 <= i < RasterXSize out -> 0 <= j < RasterYSize out ->
              (a <= band out i j <= b)%R.
Proof.
  intros Hx Hy Hout Hrange i j Hi Hj.
  rewrite (@multiLook_pixel gdal ds out xlooks ylooks i j) by assumption.
  destruct (@multiLook_eval gdal ds xlooks ylooks Hx Hy)
    as (out' & Hout' & HX & HY & _).
  rewrite Hout in Hout'. injection Hout' as <-.
  rewrite HX in Hi. rewrite HY in Hj.
  apply box_average_bounds; try lia.
  intros x y Hxr Hyr. apply Hrange.
  - assert ((i + 1) * xlooks <= RasterXSize ds / xlooks * xlooks)
      by (apply Z.mul_le_mono_nonneg_r; lia).
    assert (0 <= i * xlooks) by (apply Z.mul_nonneg_nonneg; lia).
    lia.
  - assert ((j + 1) * ylooks <= RasterYSize ds / ylooks * ylooks)
      by (apply Z.mul_le_mono_nonneg_r; lia).
    assert (0 <= j * ylooks) by (apply Z.mul_nonneg_nonneg; lia).
    lia.
Qed.

(** X14.  Looks compose, as long as the combined look factors stay within
    the raster size: multilooking by (a, a') and then by (b, b') gives a
    raster of the size that multilooking once by (a*b, a'*b') gives, and
    pixel (i, j) of both draws on the same block of a*b by a'*b' source
    pixels: in one step as the mean of the block, in two steps as the mean
    of the b by b' intermediate pixels, which are the means of the a by a'
    blocks that tile it. *)
Theorem multiLook_twice (ds : dataset) (a a' b b' : Z) :
  1 <= a -> 1 <= a' -> 1 <= b -> 1 <= b' ->
  a * b <= RasterXSize ds -> a' * b' <= RasterYSize ds ->
  exists out1 out2 out,
    multiLook gdal ds a a' = Ok out1 /\
    multiLook gdal out1 b b' = Ok out2 /\
    multiLook gdal ds (a * b) (a' * b') = Ok out /\
    RasterXSize out2 = RasterXSize out /\
    RasterYSize out2 = RasterYSize out /\
    forall i j, 0 <= i < RasterXSize out -> 0 <= j < RasterYSize out ->
      band out i j
      = box_average ds (i * (a * b)) (j * (a' * b')) (a * b) (a' * b') /\
      band out2 i j = box_average out1 (i * b) (j * b') b b' /\
      forall u v, i * b <= u < i * b + b -> j * b' <= v < j * b' + b' ->
        0 <= u < RasterXSize out1 /\ 0 <= v < RasterYSize out1 /\
        band out1 u v = box_average ds (u * a) (v * a') a a' /\
        i * (a * b) <= u * a /\ u * a + a <= i * (a * b) + a * b /\
        j * (a' * b') <= v * a' /\ v * a' + a' <= j * (a' * b') + a' * b'.
Proof.
  intros Ha Ha' Hb Hb' Hab Hab'.
  assert (Ha1 : 1 <= a <= RasterXSize ds) by nia.
  assert (Ha1' : 1 <= a' <= RasterYSize ds) by nia.
  destruct (@multiLook_eval gdal ds a a' Ha1 Ha1')
    as (out1 & H1 & X1 & Y1 & B1).
  assert (Hb1 : 1 <= b <= RasterXSize out1).
  { rewrite X1. split; [lia|]. apply Z.div_le_lower_bound; lia. }
  assert (Hb1' : 1 <= b' <= RasterYSize out1).
  { rewrite Y1. split; [lia|]. apply Z.div_le_lower_bound; lia. }
  destruct (@multiLook_eval gdal out1 b b' Hb1 Hb1')
    as (out2 & H2 & X2 & Y2 & B2).
  destruct (@multiLook_eval gdal ds (a * b) (a' * b'))
    as (out & H & X & Y & B); try nia.
  exists out1, out2, out.
  split; [exact H1|]. split; [exact H2|]. split; [exact H|].
  assert (EX : RasterXSize out2 = RasterXSize out).
  { rewrite X2, X1, X, Z.div_div by lia. reflexivity. }
  assert (EY : RasterYSize out2 = RasterYSize out).
  { rewrite Y2, Y1, Y, Z.div_div by lia. reflexivity. }
  split; [exact EX|]. split; [exact EY|].
  intros i j Hi Hj.
  split; [apply B|]. split; [apply B2|].
  intros u v Hu Hv.
  rewrite <- EX, X2 in Hi. rewrite <- EY, Y2 in Hj.
  pose proof (Z.mul_div_le (RasterXSize out1) b ltac:(lia)) as Lx.
  pose proof (Z.mul_div_le (RasterYSize out1) b' ltac:(lia)) as Ly.
  assert ((i + 1) * b <= RasterXSize out1 / b * b)
    by (apply Z.mul_le_mono_nonneg_r; lia).
  assert ((j + 1) * b' <= RasterYSize out1 / b' * b')
    by (apply Z.mul_le_mono_nonneg_r; lia).
  assert (0 <= i * b) by (apply Z.mul_nonneg_nonneg; lia).
  assert (0 <= j * b') by (apply Z.mul_nonneg_nonneg; lia).
  split; [lia|]. split; [lia|]. split; [apply B1|].
  nia.
Qed.

End MultiLookFacts.

Section MultiLookFactsExamples.

Import RasterManipulation.
Open Scope Z_scope.

Lemma multiLook_keeps_range_witness :
  let ds := mk_dataset 5 3 (fun x y => IZR (x + 10 * y))
              (conj eq_refl eq_refl) in
  exists out,
    multiLook (fun _ _ => None) ds 2 2 = Ok out /\
    (0 <= band out 1 0 <= 13)%R.
Proof.
  intros ds.
  destruct (@multiLook_eval (fun _ _ => None) ds 2 2)
    as (out & Hout & HX & HY & _); try (cbn; lia).
  exists out. split; [exact Hout|].
  apply (@multiLook_keeps_range (fun _ _ => None) ds out 2 2 0%R 13%R);
    try (cbn; lia); try exact Hout.
  - intros x y Hx Hy. cbn in Hx, Hy. cbn [band ds].
    split; [apply IZR_le; lia | apply IZR_le; lia].
  - rewrite HX. cbn. lia.
  - rewrite HY. cbn. lia.
Defined.

Lemma multiLook_twice_witness :
  let ds := mk_dataset 9 4 (fun x y => IZR (x + 10 * y))
              (conj eq_refl eq_refl) in
  exists out1 out2 out,
    multiLook (fun _ _ => None) ds 2 1 = Ok out1 /\
    multiLook (fun _ _ => None) out1 2 2 = Ok out2 /\
    multiLook (fun _ _ => None) ds 4 2 = Ok out /\
    RasterXSize out2 = RasterXSize out /\
    RasterYSize out2 = RasterYSize out /\
    band out2 1 1 = box_average out1 2 2 2 2 /\
    band out1 3 2 = box_average ds 6 2 2 1.
Proof.
  intros ds.
  destruct (@multiLook_twice (fun _ _ => None) ds 2 1 2 2) as
    (out1 & out2 & out & H1 & H2 & H & EX & EY & Hp);
    try (cbn; lia).
  exists out1, out2, out.
  split; [exact H1|]. split; [exact H2|]. split; [exact H|].
  split; [exact EX|]. split; [exact EY|].
  destruct (@multiLook_eval (fun _ _ => None) ds 4 2)
    as (o & Ho & HX & HY & _); try (cbn; lia).
  change (2 * 2) with 4 in H. change (1 * 2) with 2 in H.
  rewrite H in Ho. injection Ho as <-.
  destruct (Hp 1 1) as (_ & E2 & Hq).
  { rewrite HX. cbn. lia. }
  { rewrite HY. cbn. lia. }
  split; [exact E2|].
  destruct (Hq 3 2) as (_ & _ & E1 & _); [lia | lia |].
  exact E1.
Defined.

End MultiLookFactsExamples.

(** ** The long-lat file and the direction of the line of sight *)

Section LongLat.

Import KiteWorkflow LongLatFile.
Open Scope string_scope.

Variable pct_f : R -> string.
Hypothesis pct_f_no_space : forall x, has_space (pct_f x) = false.

Lemma okinv_data_ll_eval (reflat reflon : R) (qt : quadtree) :
  qt <> [] ->
  okinv_data_ll reflat reflon qt
  = Ok (map (fun i =>
               [nth i (map (fun l => fst (focal_point l) + reflon) qt) 0;
                nth i (map (fun l => snd (focal_point l) + reflat) qt) 0;
                nth i (leaf_means qt) 0;
                nth i (losx qt) 0; nth i (losy qt) 0; nth i (losz qt) 0;
                INR (S i)]%R)
            (seq 0 (length qt))).
Proof.
  intros Hqt.
  unfold okinv_data_ll. rewrite xyll_eval by exact Hqt. cbn [bind].
  unfold column_stack. cbn [hd forallb].
  unfold leaf_means, losx, losy, losz, leaf_thetas, leaf_phis.
  rewrite dataptid_seq, !zip_with_map, !map_map, !length_map, length_seq.
  rewrite !Nat.eqb_refl. cbn [andb].
  f_equal. apply map_ext_in. intros i Hi. apply in_seq in Hi.
  cbn [map fst snd]. do 7 f_equal.
  apply nth_error_nth. apply (map_nth_error INR).
  rewrite nth_error_seq.
  destruct (Nat.ltb_spec i (length qt)); [reflexivity | lia].
Qed.

(** X15.  The long-lat file needs no projection.  For a quadtree with at
    least one leaf it is written with one line per leaf, whose seven fields
    are the longitude (focal east plus reference longitude), the latitude
    (focal north plus reference latitude), the leaf mean, the three
    line-of-sight components and the decimal numeral of the line number,
    starting at 1.  For a quadtree without leaves the cell that builds
    [xyll] raises IndexError and nothing is written. *)
Theorem okinv_ll_rows (reflat reflon : R) (qt : quadtree) :
  (qt = [] -> write_okinv_ll pct_f reflat reflon qt = Raise IndexError) /\
  (qt <> [] ->
   exists lines,
     write_okinv_ll pct_f reflat reflon qt = Ok lines /\
     length lines = length qt /\
     forall i l,
       nth_error qt i = Some l ->
       exists line,
         nth_error lines i = Some line /\
         fields line
         = [pct_f (fst (focal_point l) + reflon)%R;
            pct_f (snd (focal_point l) + reflat)%R;
            pct_f (leaf_mean l);
            pct_f (los_x (leaf_theta l) (leaf_phi l));
            pct_f (los_y (leaf_theta l) (leaf_phi l));
            pct_f (los_z (leaf_theta l));
            NilZero.string_of_int (Z.to_int (Z.of_nat (S i)))]).
Proof.
  split; [intros ->; reflexivity|].
  intros Hqt.
  eexists. split.
  { unfold write_okinv_ll. rewrite okinv_data_ll_eval by exact Hqt.
    cbn [bind]. unfold savetxt. apply mapM_map. intros i _.
    cbn [format_row]. reflexivity. }
  split; [rewrite length_map, length_seq; reflexivity|].
  intros i l Hl.
  assert (Hi : (i < length qt)%nat) by (apply nth_error_Some; congruence).
  eexists. split.
  { erewrite map_nth_error; [reflexivity|].
    rewrite nth_error_seq.
    destruct (Nat.ltb_spec i (length qt)); [reflexivity | lia]. }
  cbn [Nat.add].
  unfold leaf_means, losx, losy, losz, leaf_thetas, leaf_phis.
  rewrite !zip_with_map, !map_map.
  rewrite (nth_error_nth _ _ 0%R
             (map_nth_error (fun p => (fst (focal_point p) + reflon)%R) _ _ Hl)).
  rewrite (nth_error_nth _ _ 0%R
             (map_nth_error (fun p => (snd (focal_point p) + reflat)%R) _ _ Hl)).
  rewrite (nth_error_nth _ _ 0%R (map_nth_error leaf_mean _ _ Hl)).
  rewrite (nth_error_nth _ _ 0%R
             (map_nth_error (fun a => los_x (leaf_theta a) (leaf_phi a)) _ _ Hl)).
  rewrite (nth_error_nth _ _ 0%R
             (map_nth_error (fun a => los_y (leaf_theta a) (leaf_phi a)) _ _ Hl)).
  rewrite (nth_error_nth _ _ 0%R
             (map_nth_error (fun a => los_z (leaf_theta a)) _ _ Hl)).
  cbn [append]. rewrite !fields_cons by apply pct_f_no_space.
  rewrite pct_d_id, fields_single by apply decimal_no_space.
  reflexivity.
Qed.

End LongLat.

Lemma okinv_ll_rows_witness :
  let pct_f := fun _ : R => "f"%string in
  let qt := [KiteWorkflow.mk_leaf (0, 0) 1 0 0;
             KiteWorkflow.mk_leaf (1, 1) 2 0 0] in
  LongLatFile.write_okinv_ll pct_f 0 0 [] = Raise IndexError /\
  exists lines,
    LongLatFile.write_okinv_ll pct_f 0 0 qt = Ok lines /\
    length lines = 2%nat.
Proof.
  intros pct_f qt. split.
  - apply (@okinv_ll_rows pct_f (fun _ => eq_refl) 0 0 []). reflexivity.
  - destruct (@okinv_ll_rows pct_f (fun _ => eq_refl) 0 0 qt)
      as (_ & Hok).
    destruct Hok as (lines & Hw & Hlen & _); [discriminate|].
    exists lines. split; [exact Hw | exact Hlen].
Defined.

Section LookDirection.

Import KiteWorkflow.

Lemma radians_range (inc : R) :
  0 <= inc <= 90 -> 0 <= radians inc <= PI / 2.
Proof.
  intros H. unfold radians. pose proof PI_RGT_0 as Hpi. split; nra.
Qed.

(** X16.  For an incidence angle between 0 and 90 degrees the line-of-sight
    vector written to the file points from the satellite down to the ground:
    its vertical component lies between -1 and 0, and its horizontal
    components have length sin(inc).  At vertical incidence the vector is
    (0, 0, -1). *)
Theorem los_points_down (inc azi : R) :
  0 <= inc <= 90 ->
  let theta := sc_theta inc in
  let phi := sc_phi azi in
  -1 <= los_z theta <= 0 /\
  los_x theta phi * los_x theta phi + los_y theta phi * los_y theta phi
  = sin (radians inc) * sin (radians inc) /\
  (inc = 0 ->
   los_x theta phi = 0 /\ los_y theta phi = 0 /\ los_z theta = -1).
Proof.
  intros Hinc theta phi. unfold theta, phi.
  rewrite sc_theta_complement.
  unfold los_x, los_y, los_z. rewrite cos_shift, sin_shift.
  pose proof (radians_range Hinc) as Hr.
  pose proof (COS_bound (radians inc)) as Hb.
  pose proof (cos_ge_0 (radians inc)) as Hc.
  pose proof PI_RGT_0 as Hpi.
  split; [split; [lra | apply Ropp_le_cancel; rewrite Ropp_involutive, Ropp_0;
                         apply Hc; lra]|].
  split.
  - pose proof (sin2_cos2 (sc_phi azi)) as Hp. unfold Rsqr in Hp.
    replace (sin (radians inc) * - cos (sc_phi azi)
             * (sin (radians inc) * - cos (sc_phi azi))
             + sin (radians inc) * - sin (sc_phi azi)
               * (sin (radians inc) * - sin (sc_phi azi)))
      with (sin (radians inc) * sin (radians inc)
            * (sin (sc_phi azi) * sin (sc_phi azi)
               + cos (sc_phi azi) * cos (sc_phi azi))) by ring.
    rewrite Hp. ring.
  - intros ->. unfold radians. rewrite Rmult_0_l, sin_0, cos_0.
    repeat split; ring.
Qed.

Lemma los_points_down_witness :
  -1 <= los_z (sc_theta 30) <= 0.
Proof.
  apply (@los_points_down 30 0). lra.
Defined.

End LookDirection.

(** ** The penalty cells on binary64 numbers: what holds for every input *)

Section Binary64Facts.

Import PrimFloat SpecFloat FloatOps FloatAxioms Numpy64.
Local Open Scope float_scope.

(** The fuel of the summation is enough: the loop over groups of eight
    stops with fewer than eight numbers left, and more fuel than the length
    of the array does not change the sum. *)
Lemma add_groups_done (fuel : nat) (r xs : list float) :
  (length xs <= fuel)%nat ->
  (length (snd (add_groups fuel r xs)) < 8)%nat.
Proof.
  revert r xs. induction fuel as [|fuel IH]; intros r xs H;
    cbn [add_groups].
  - cbn [snd]. lia.
  - destruct (Nat.ltb_spec (length xs) 8) as [Hlt|Hge]; [exact Hlt|].
    apply IH. rewrite length_skipn. lia.
Qed.

Lemma pairwise_sum_fuel (fuel fuel' : nat) (xs : list float) :
  (length xs <= fuel)%nat -> (length xs <= fuel')%nat ->
  pairwise_sum fuel xs = pairwise_sum fuel' xs.
Proof.
  revert fuel' xs. induction fuel as [|fuel IH]; intros fuel' xs H H'.
  - destruct xs; [|cbn in H; lia]. destruct fuel'; reflexivity.
  - destruct fuel' as [|fuel'].
    { destruct xs; [|cbn in H'; lia]. reflexivity. }
    cbn [pairwise_sum].
    destruct (Nat.ltb_spec (length xs) 8) as [Hlt|Hge]; [reflexivity|].
    destruct (Nat.leb_spec (length xs) 128) as [Hle|Hgt]; [reflexivity|].
    set (n2 := (length xs / 2 - (length xs / 2) mod 8)%nat).
    assert (Hn2 : (57 <= n2 <= length xs / 2)%nat).
    { unfold n2.
      pose proof (Nat.mod_upper_bound (length xs / 2) 8 ltac:(lia)).
      pose proof (Nat.div_le_lower_bound (length xs) 2 64 ltac:(lia)
                    ltac:(lia)).
      lia. }
    assert (Hhalf : (length xs / 2 < length xs)%nat)
      by (apply Nat.div_lt; lia).
    f_equal; apply IH; rewrite ?length_firstn, ?length_skipn; lia.
Qed.

Lemma binary_round_aux_sign (s : bool) (m e : Z) (l : location) :
  match binary_round_aux prec emax s m e l with
  | S754_nan => True
  | S754_zero s' | S754_infinity s' | S754_finite s' _ _ => s' = s
  end.
Proof.
  unfold binary_round_aux.
  destruct (shr_fexp prec emax m e l) as [mrs' e'].
  destruct (shr_fexp prec emax _ e' loc_Exact) as [mrs'' e''].
  destruct (shr_m mrs''); [reflexivity | | exact I].
  destruct (Z.leb e'' (Z.sub emax prec)); reflexivity.
Qed.

Lemma binary_round_aux_not_negative (m e : Z) (l : location) :
  sf_not_negative (binary_round_aux prec emax false m e l).
Proof.
  pose proof (binary_round_aux_sign false m e l) as H.
  destruct (binary_round_aux prec emax false m e l); simpl; auto.
Qed.

Lemma binary_round_not_negative (m : positive) (e : Z) :
  sf_not_negative (binary_round prec emax false m e).
Proof.
  unfold binary_round. destruct (shl_align m e _) as [mz ez].
  apply binary_round_aux_not_negative.
Qed.

Lemma SFmul_self_not_negative (x : spec_float) :
  sf_not_negative (SF64mul x x).
Proof.
  destruct x as [s|s| |s m e]; simpl; auto.
  - destruct s; reflexivity.
  - replace (xorb s s) with false by (destruct s; reflexivity).
    apply binary_round_aux_not_negative.
Qed.

Lemma SFadd_not_negative (x y : spec_float) :
  sf_not_negative x -> sf_not_negative y -> sf_not_negative (SF64add x y).
Proof.
  destruct x as [sx|sx| |sx mx ex]; destruct y as [sy|sy| |sy my ey];
    simpl; intros Hx Hy; subst; try exact I; try reflexivity.
  - destruct sx, sy; exact I.
  - apply binary_round_not_negative.
Qed.

Lemma not_negative_ltb (x : float) : not_negative x -> (x <? 0) = false.
Proof.
  unfold not_negative. rewrite ltb_spec.
  change (Prim2SF 0) with (S754_zero false).
  destruct (Prim2SF x) as [s|s| |s m e]; simpl; intros H; subst; reflexivity.
Qed.

Lemma not_negative_add (x y : float) :
  not_negative x -> not_negative y -> not_negative (x + y).
Proof.
  unfold not_negative. rewrite add_spec. apply SFadd_not_negative.
Qed.

Lemma not_negative_square (x : float) : not_negative (x * x).
Proof.
  unfold not_negative. rewrite mul_spec. apply SFmul_self_not_negative.
Qed.

Lemma not_negative_zero : not_negative 0.
Proof. exact I. Qed.

Lemma not_negative_minus_zero : not_negative (-0).
Proof. exact I. Qed.

Lemma sum_left_not_negative (xs : list float) (start : float) :
  not_negative start -> Forall not_negative xs ->
  not_negative (Numpy64.sum_left start xs).
Proof.
  unfold Numpy64.sum_left. intros Hs Hxs. revert start Hs.
  induction Hxs as [|x xs Hx _ IH]; intros start Hs; [exact Hs|].
  cbn [fold_left]. apply IH. apply not_negative_add; assumption.
Qed.

Lemma zip_add_not_negative (xs ys : list float) :
  Forall not_negative xs -> Forall not_negative ys ->
  Forall not_negative (Numpy.zip_with PrimFloat.add xs ys).
Proof.
  intros Hx. revert ys. induction Hx as [|x xs Hx _ IH]; intros ys Hy.
  - constructor.
  - destruct Hy as [|y ys Hy Hys]; simpl; constructor.
    + apply not_negative_add; assumption.
    + apply IH. exact Hys.
Qed.

Lemma Forall_firstn_skipn {A : Type} (P : A -> Prop) (n : nat) (l : list A) :
  Forall P l -> Forall P (firstn n l) /\ Forall P (skipn n l).
Proof.
  intros H. rewrite <- (firstn_skipn n l) in H.
  apply Forall_app in H. exact H.
Qed.

Lemma add_groups_not_negative (fuel : nat) (r xs : list float) :
  Forall not_negative r -> Forall not_negative xs ->
  Forall not_negative (fst (Numpy64.add_groups fuel r xs)) /\
  Forall not_negative (snd (Numpy64.add_groups fuel r xs)).
Proof.
  revert r xs. induction fuel as [|fuel IH]; intros r xs Hr Hxs;
    cbn [Numpy64.add_groups]; [split; assumption|].
  destruct (Nat.ltb (length xs) 8); [split; assumption|].
  apply IH.
  - apply zip_add_not_negative;
      [exact Hr | apply (Forall_firstn_skipn 8 Hxs)].
  - apply (Forall_firstn_skipn 8 Hxs).
Qed.

Lemma nth_not_negative (r : list float) (i : nat) :
  Forall not_negative r -> not_negative (nth i r 0).
Proof.
  intros H. destruct (Nat.lt_ge_cases i (length r)) as [Hi|Hi].
  - apply (proj1 (Forall_forall _ r) H). apply nth_In. exact Hi.
  - rewrite nth_overflow by exact Hi. exact not_negative_zero.
Qed.

Lemma sum_block_not_negative (xs : list float) :
  Forall not_negative xs -> not_negative (Numpy64.sum_block xs).
Proof.
  intros H. unfold Numpy64.sum_block.
  pose proof (@add_groups_not_negative (length xs) (firstn 8 xs) (skipn 8 xs)
                (proj1 (Forall_firstn_skipn 8 H))
                (proj2 (Forall_firstn_skipn 8 H))) as [Hr Hrest].
  destruct (Numpy64.add_groups _ _ _) as [r rest]. cbn [fst snd] in *.
  apply sum_left_not_negative; [|exact Hrest].
  repeat apply not_negative_add; apply nth_not_negative; exact Hr.
Qed.

Lemma pairwise_sum_not_negative (fuel : nat) (xs : list float) :
  Forall not_negative xs -> not_negative (Numpy64.pairwise_sum fuel xs).
Proof.
  revert xs. induction fuel as [|fuel IH]; intros xs H;
    cbn [Numpy64.pairwise_sum].
  - apply sum_left_not_negative; [exact not_negative_minus_zero | exact H].
  - destruct (Nat.ltb (length xs) 8).
    + apply sum_left_not_negative; [exact not_negative_minus_zero | exact H].
    + destruct (Nat.leb (length xs) 128).
      * apply sum_block_not_negative. exact H.
      * apply not_negative_add; apply IH;
          apply (Forall_firstn_skipn (length xs / 2 - (length xs / 2) mod 8) H).
Qed.

Lemma sum_square_not_negative (xs : list float) :
  not_negative (Numpy64.sum (Numpy64.square xs)).
Proof.
  unfold Numpy64.sum. apply not_negative_add; [exact not_negative_zero|].
  apply pairwise_sum_not_negative. unfold Numpy64.square.
  apply Forall_forall. intros y Hy. apply in_map_iff in Hy.
  destruct Hy as (x & <- & _). apply not_negative_square.
Qed.

Lemma not_negative_cases (x : float) :
  not_negative x -> (0 <=? x) = true \/ x = nan.
Proof.
  unfold not_negative. intros H. rewrite leb_spec.
  change (Prim2SF 0) with (S754_zero false).
  destruct (Prim2SF x) as [s|s| |s m e] eqn:E; simpl in *; subst;
    try (left; reflexivity).
  right. apply Prim2SF_inj. rewrite E. reflexivity.
Qed.

(** X18.  On binary64 numbers the penalty and the zero-level-corrected
    penalty are never negative, whatever the two arrays hold: each is NaN
    or at least zero (infinity included). *)
Theorem penalty_never_negative (d m : list float) :
  (forall p, ForwardModel64.penalty d m = Ok p ->
             (p <? 0) = false /\ ((0 <=? p) = true \/ p = nan)) /\
  (forall z p, ForwardModel64.penalty_zero_level d m = Ok (z, p) ->
               (p <? 0) = false /\ ((0 <=? p) = true \/ p = nan)).
Proof.
  split.
  - intros p. unfold ForwardModel64.penalty.
    destruct (Numpy64.sub d m) as [r|e]; cbn [bind]; [|discriminate].
    intros [= <-]. split.
    + apply not_negative_ltb, sum_square_not_negative.
    + apply not_negative_cases, sum_square_not_negative.
  - intros z p. unfold ForwardModel64.penalty_zero_level.
    destruct (ForwardModel64.zero_shift d m) as [z'|e]; cbn [bind];
      [|discriminate].
    destruct (Numpy64.sub _ m) as [r|e]; cbn [bind]; [|discriminate].
    intros [= <- <-]. split.
    + apply not_negative_ltb, sum_square_not_negative.
    + apply not_negative_cases, sum_square_not_negative.
Qed.

(** Taking a zero off an observation does not change the square of its
    residual. *)
Lemma SF_zero_shift (x z m : spec_float) (s : bool) :
  z = S754_zero s ->
  SF64mul (SF64sub (SF64sub x z) m) (SF64sub (SF64sub x z) m)
  = SF64mul (SF64sub x m) (SF64sub x m).
Proof.
  intros ->.
  destruct x as [sx|sx| |sx mx ex]; try reflexivity.
  destruct m as [sm|sm| |sm mm em]; destruct sx, s; try destruct sm;
    reflexivity.
Qed.

Lemma eqb_zero (z : float) :
  (z =? 0) = true -> exists s, Prim2SF z = S754_zero s.
Proof.
  rewrite eqb_spec. change (Prim2SF 0) with (S754_zero false).
  destruct (Prim2SF z) as [s|s| |s m e]; simpl.
  - intros _. exists s. reflexivity.
  - destruct s; discriminate.
  - discriminate.
  - destruct s; discriminate.
Qed.

Lemma zero_shift_square (x z m : float) :
  (z =? 0) = true ->
  ((x - z) - m) * ((x - z) - m) = (x - m) * (x - m).
Proof.
  intros Hz. destruct (@eqb_zero z Hz) as [s Hs].
  apply Prim2SF_inj. rewrite !mul_spec, !sub_spec.
  apply (@SF_zero_shift _ _ _ s Hs).
Qed.

Lemma zero_shift_squares (d m : list float) (z : float) :
  (z =? 0) = true ->
  match Numpy64.sub (Numpy64.sub_scalar d z) m, Numpy64.sub d m with
  | Ok a, Ok b => Numpy64.square a = Numpy64.square b
  | Raise e, Raise e' => e = e'
  | _, _ => False
  end.
Proof.
  intros Hz. unfold Numpy64.sub, Numpy64.broadcast2, Numpy64.sub_scalar.
  rewrite length_map.
  destruct (Nat.eqb (length d) (length m)) eqn:E.
  - clear E. unfold Numpy64.square. revert m.
    induction d as [|x d IH]; intros [|y m]; simpl; try reflexivity.
    rewrite IH, zero_shift_square by exact Hz. reflexivity.
  - assert (Hmap : forall y,
               Numpy64.square (map (fun x => x - y) (map (fun x => x - z) d))
               = Numpy64.square (map (fun x => x - y) d)).
    { intros y. unfold Numpy64.square. rewrite !map_map.
      apply map_ext. intros x. apply zero_shift_square. exact Hz. }
    assert (Hone : forall x,
               Numpy64.square (map (fun y => (x - z) - y) m)
               = Numpy64.square (map (fun y => x - y) m)).
    { intros x. unfold Numpy64.square. rewrite !map_map.
      apply map_ext. intros y. apply zero_shift_square. exact Hz. }
    destruct d as [|x [|x' d]]; destruct m as [|y [|y' m]];
      try discriminate E; cbn [map]; try reflexivity;
      try apply Hmap; try apply Hone.
Qed.

(** X19.  On binary64 numbers, when the shift the second cell computes is
    zero, subtracting it changes nothing: the corrected penalty is the
    uncorrected penalty, bit for bit. *)
Theorem zero_shift_keeps_penalty (d m : list float) (z p : float) :
  ForwardModel64.penalty_zero_level d m = Ok (z, p) ->
  (z =? 0) = true ->
  ForwardModel64.penalty d m = Ok p.
Proof.
  unfold ForwardModel64.penalty_zero_level, ForwardModel64.penalty.
  destruct (ForwardModel64.zero_shift d m) as [z'|e]; cbn [bind];
    [|discriminate].
  intros H Hz.
  assert (z' = z).
  { destruct (Numpy64.sub (Numpy64.sub_scalar d z') m); cbn [bind] in H;
      [injection H as <- _; reflexivity | discriminate]. }
  subst z'.
  pose proof (@zero_shift_squares d m z Hz) as Hs.
  destruct (Numpy64.sub (Numpy64.sub_scalar d z) m) as [a|e1];
    destruct (Numpy64.sub d m) as [b|e2]; cbn [bind] in *;
    try contradiction; try discriminate.
  injection H as <-. rewrite Hs. reflexivity.
Qed.

(** Observations 3 and 1 against predictions 1 and 3: the residuals 2 and
    -2 have mean zero and both penalties are 8. *)
Lemma zero_shift_keeps_penalty_witness :
  ForwardModel64.penalty_zero_level [3; 1] [1; 3] = Ok (0, 8) /\
  ForwardModel64.penalty [3; 1] [1; 3] = Ok 8.
Proof.
  assert (H : ForwardModel64.penalty_zero_level [3; 1] [1; 3] = Ok (0, 8))
    by (vm_compute; reflexivity).
  split; [exact H|].
  apply (@zero_shift_keeps_penalty [3; 1] [1; 3] 0 8 H).
  vm_compute. reflexivity.
Defined.

Lemma SFmul_round_sign (s : bool) (m e : Z) (l : location) :
  SF64mul (binary_round_aux prec emax s m e l) (binary_round_aux prec emax s m e l)
  = SF64mul (binary_round_aux prec emax false m e l)
      (binary_round_aux prec emax false m e l).
Proof.
  unfold binary_round_aux.
  destruct (shr_fexp prec emax m e l) as [mrs' e'].
  destruct (shr_fexp prec emax _ e' loc_Exact) as [mrs'' e''].
  destruct (shr_m mrs''); [destruct s; reflexivity | | reflexivity].
  destruct (Z.leb e'' (Z.sub emax prec)); destruct s; reflexivity.
Qed.

Lemma SFmul_binary_round_sign (s : bool) (m : positive) (e : Z) :
  SF64mul (binary_round prec emax s m e) (binary_round prec emax s m e)
  = SF64mul (binary_round prec emax false m e) (binary_round prec emax false m e).
Proof.
  unfold binary_round. destruct (shl_align m e _) as [mz ez].
  apply SFmul_round_sign.
Qed.

Lemma SFmul_normalize_opp (D e : Z) :
  SF64mul (binary_normalize prec emax (Z.opp D) e false)
    (binary_normalize prec emax (Z.opp D) e false)
  = SF64mul (binary_normalize prec emax D e false)
      (binary_normalize prec emax D e false).
Proof.
  destruct D as [|p|p]; cbn [Z.opp binary_normalize]; [reflexivity| |].
  - apply SFmul_binary_round_sign.
  - symmetry. apply SFmul_binary_round_sign.
Qed.

Lemma SF_square_swap (x y : spec_float) :
  SF64mul (SF64sub y x) (SF64sub y x) = SF64mul (SF64sub x y) (SF64sub x y).
Proof.
  destruct x as [sx|sx| |sx mx ex]; destruct y as [sy|sy| |sy my ey];
    try reflexivity;
    try (destruct sx, sy; reflexivity);
    try (destruct sx; reflexivity);
    try (destruct sy; reflexivity).
  unfold SF64sub, SFsub.
  rewrite (Z.min_comm ey ex).
  set (ez := Z.min ex ey).
  set (A := cond_Zopp sx (Zpos (fst (shl_align mx ex ez)))).
  set (B := cond_Zopp sy (Zpos (fst (shl_align my ey ez)))).
  replace (Z.sub B A) with (Z.opp (Z.sub A B)) by lia.
  apply SFmul_normalize_opp.
Qed.

Lemma square_swap (x y : float) : (y - x) * (y - x) = (x - y) * (x - y).
Proof.
  apply Prim2SF_inj. rewrite !mul_spec, !sub_spec. apply SF_square_swap.
Qed.

(** Swapping the operands of a subtraction keeps the failures and the
    squares of the differences. *)
Lemma sub_swap (xs ys : list float) :
  match Numpy64.sub ys xs, Numpy64.sub xs ys with
  | Ok a, Ok b => Numpy64.square a = Numpy64.square b
  | Raise e, Raise e' => e = e'
  | _, _ => False
  end.
Proof.
  unfold Numpy64.sub, Numpy64.broadcast2.
  rewrite (Nat.eqb_sym (length ys) (length xs)).
  assert (Hmap : forall (l : list float) (c : float),
             Numpy64.square (map (fun x => c - x) l)
             = Numpy64.square (map (fun x => x - c) l)).
  { intros l c. unfold Numpy64.square. rewrite !map_map.
    apply map_ext. intros x. apply square_swap. }
  destruct (Nat.eqb (length xs) (length ys)) eqn:E.
  - clear E. unfold Numpy64.square. revert ys.
    induction xs as [|x xs IH]; intros [|y ys]; simpl; try reflexivity.
    rewrite IH, square_swap. reflexivity.
  - destruct xs as [|x [|x' xs]]; destruct ys as [|y [|y' ys]];
      try discriminate E; try reflexivity;
      try apply Hmap; try (symmetry; apply Hmap).
Qed.


End Binary64Facts.
